(** * TriCore instruction selection: address-mode matching and constant
      materialisation

    A shallow embedding of [lib/Target/TriCore/TriCoreISelDAGToDAG.cpp]:
    the addressing-mode record [TriCoreISelAddressMode], the matcher
    [MatchWrapper] / [MatchAddressBase] / [MatchAddress], the bit helpers
    [getFFS], [getNumSetBits], [getNumConsecutiveOnes], [ipow], and
    [SelectConstant].

    Conventions.  C++ fixed-width integers are [Z] values with the
    wrap-around written out ([to_uint32], [to_int32], [to_uint64],
    [to_int64]).  The matcher functions return [true] when they could NOT
    match, exactly as the C++ does; a by-reference [AM] parameter becomes an
    extra component of the result. *)

From Stdlib Require Import ZArith Lia List Bool String.
Import ListNotations.
Local Open Scope Z_scope.

(** ** Fixed-width integers *)

Module Int.

Definition to_uint (w x : Z) : Z := x mod 2 ^ w.
Definition to_int (w x : Z) : Z := (x + 2 ^ (w - 1)) mod 2 ^ w - 2 ^ (w - 1).

Definition to_uint16 := to_uint 16.
Definition to_uint32 := to_uint 32.
Definition to_uint64 := to_uint 64.
Definition to_int16 := to_int 16.
Definition to_int32 := to_int 32.
Definition to_int64 := to_int 64.

Definition INT64_MIN : Z := - 2 ^ 63.
Definition INT64_MAX : Z := 2 ^ 63 - 1.

End Int.
Import Int.

(** ** The selection DAG, as far as the selector inspects it *)

(** [MVT]: the simple value types the selector tests for. *)
Inductive MVT : Type := i1 | i8 | i16 | i32 | i64.

Definition MVT_eqb (a b : MVT) : bool :=
  match a, b with
  | i1, i1 | i8, i8 | i16, i16 | i32, i32 | i64, i64 => true
  | _, _ => false
  end.

Definition getSizeInBits (VT : MVT) : Z :=
  match VT with
  | i1 => 1 | i8 => 8 | i16 => 16 | i32 => 32 | i64 => 64
  end.

(** IR-level entities referenced by pointer in the C++ are identified by
    name or number. *)
Definition GlobalValue := string.
Definition ConstantRef := nat.
Definition BlockAddressRef := nat.

#[local] Set Warnings "-register-all".

(** [SDValue]: one constructor per opcode the selector distinguishes.
    [Constant VT Val] is a [ConstantSDNode] whose [APInt] has the width of
    [VT] and the bits of [Val] (read modulo [2 ^ width]).  [GlobalAddress]
    stands for every [GlobalAddressSDNode].  [CopyFromReg] is a value living
    in a virtual register and [Other] any node with an opcode that
    [MatchAddress] does not list (loads, multiplications, ...). *)
Inductive SDValue : Type :=
| Constant (VT : MVT) (Val : Z)
| FrameIndex (FI : Z)
| Wrapper (Op0 : SDValue)
| GlobalAddress (G : GlobalValue) (Offset : Z)
| ExternalSymbol (Sym : string)
| BlockAddress (BA : BlockAddressRef)
| ConstantPool (C : ConstantRef) (Alignment : Z)
| JumpTable (Index : Z)
| ADD (Op0 Op1 : SDValue)
| OR (Op0 Op1 : SDValue)
| CopyFromReg (Reg : nat)
| Other (Opc : nat) (Ops : list SDValue).

(** [ConstantSDNode::getZExtValue], [getSExtValue]. *)
Definition getZExtValue (VT : MVT) (Val : Z) : Z :=
  to_uint (getSizeInBits VT) Val.
Definition getSExtValue (VT : MVT) (Val : Z) : Z :=
  to_int (getSizeInBits VT) Val.

(** [N.getOperand(i)]; LLVM asserts when [i] is out of range, here [None]. *)
Definition getOperand (N : SDValue) (i : nat) : option SDValue :=
  match N with
  | Wrapper Op0 => nth_error [Op0] i
  | ADD Op0 Op1 | OR Op0 Op1 => nth_error [Op0; Op1] i
  | Other _ Ops => nth_error Ops i
  | _ => None
  end.

(** ** [TriCoreISelAddressMode] *)

Inductive BaseTypeT : Type := RegBase | FrameIndexBase.

(** [Base_Reg = None] is an [SDValue] with a null node; [Base_FrameIndex =
    None] is the [int] that the constructor leaves unset. *)
Record TriCoreISelAddressMode : Type := mkAM {
  BaseType : BaseTypeT;
  Base_Reg : option SDValue;
  Base_FrameIndex : option Z;
  Disp : Z;
  GV : option GlobalValue;
  CP : option ConstantRef;
  BlockAddr : option BlockAddressRef;
  ES : option string;
  JT : Z;
  Align : Z
}.

(** The constructor: [BaseType(RegBase), Disp(0), GV(nullptr), CP(nullptr),
    BlockAddr(nullptr), ES(nullptr), JT(-1), Align(0)]. *)
Definition TriCoreISelAddressMode_new : TriCoreISelAddressMode :=
  {| BaseType := RegBase; Base_Reg := None; Base_FrameIndex := None;
     Disp := 0; GV := None; CP := None; BlockAddr := None; ES := None;
     JT := -1; Align := 0 |}.

Definition isSome {A} (o : option A) : bool :=
  match o with Some _ => true | None => false end.

(** [GV != nullptr || CP != nullptr || ES != nullptr || JT != -1] *)
Definition hasSymbolicDisplacement (AM : TriCoreISelAddressMode) : bool :=
  isSome (GV AM) || isSome (CP AM) || isSome (ES AM) || negb (JT AM =? -1).

(** Field updates. *)
Definition set_Disp (AM : TriCoreISelAddressMode) (d : Z) :=
  {| BaseType := BaseType AM; Base_Reg := Base_Reg AM;
     Base_FrameIndex := Base_FrameIndex AM; Disp := d; GV := GV AM;
     CP := CP AM; BlockAddr := BlockAddr AM; ES := ES AM; JT := JT AM;
     Align := Align AM |}.

Definition set_GV (AM : TriCoreISelAddressMode) (g : option GlobalValue) :=
  {| BaseType := BaseType AM; Base_Reg := Base_Reg AM;
     Base_FrameIndex := Base_FrameIndex AM; Disp := Disp AM; GV := g;
     CP := CP AM; BlockAddr := BlockAddr AM; ES := ES AM; JT := JT AM;
     Align := Align AM |}.

Definition set_BaseType (AM : TriCoreISelAddressMode) (b : BaseTypeT) :=
  {| BaseType := b; Base_Reg := Base_Reg AM;
     Base_FrameIndex := Base_FrameIndex AM; Disp := Disp AM; GV := GV AM;
     CP := CP AM; BlockAddr := BlockAddr AM; ES := ES AM; JT := JT AM;
     Align := Align AM |}.

Definition set_Base_Reg (AM : TriCoreISelAddressMode) (r : option SDValue) :=
  {| BaseType := BaseType AM; Base_Reg := r;
     Base_FrameIndex := Base_FrameIndex AM; Disp := Disp AM; GV := GV AM;
     CP := CP AM; BlockAddr := BlockAddr AM; ES := ES AM; JT := JT AM;
     Align := Align AM |}.

Definition set_Base_FrameIndex (AM : TriCoreISelAddressMode) (i : option Z) :=
  {| BaseType := BaseType AM; Base_Reg := Base_Reg AM;
     Base_FrameIndex := i; Disp := Disp AM; GV := GV AM;
     CP := CP AM; BlockAddr := BlockAddr AM; ES := ES AM; JT := JT AM;
     Align := Align AM |}.

(** [AM.Disp += v] on the [int64_t] field: two's-complement wrap-around,
    which is what the conversion of the [uint64_t] sum back to [int64_t]
    (and, for [G->getOffset()], the signed addition) does on the target
    compilers. *)
Definition add_Disp (AM : TriCoreISelAddressMode) (v : Z) :=
  set_Disp AM (to_int64 (Disp AM + v)).

(** ** The matcher *)

(** [MatchWrapper]: returns [true] when no match is possible. *)
Definition MatchWrapper (N : SDValue) (AM : TriCoreISelAddressMode)
  : bool * TriCoreISelAddressMode :=
  if hasSymbolicDisplacement AM then (true, AM)
  else
    match getOperand N 0 with
    | Some (GlobalAddress G Offset) =>
        (false, add_Disp (set_GV AM (Some G)) Offset)
    | _ => (false, AM)
    end.

(** [MatchAddressBase]: is the base register already occupied? *)
Definition MatchAddressBase (N : SDValue) (AM : TriCoreISelAddressMode)
  : bool * TriCoreISelAddressMode :=
  match BaseType AM, Base_Reg AM with
  | RegBase, None => (false, set_Base_Reg (set_BaseType AM RegBase) (Some N))
  | _, _ => (true, AM)
  end.

(** How control leaves the [switch] of [MatchAddress]: through a [return]
    inside a case, or through [break] towards the final
    [return MatchAddressBase(N, AM)]. *)
Inductive SwitchExit : Type :=
| Return (failed : bool) (AM : TriCoreISelAddressMode)
| Break (AM : TriCoreISelAddressMode).

Section Matcher.

(** [CurDAG->MaskedValueIsZero(Op, Mask)], the known-zero-bits analysis of
    the selection DAG; the mask is the constant's [APInt], given by its
    type and bits. *)
Variable MaskedValueIsZero : SDValue -> MVT -> Z -> bool.

Fixpoint MatchAddress_switch (N : SDValue) (AM : TriCoreISelAddressMode)
  {struct N} : SwitchExit :=
  let MatchAddress (M : SDValue) (A : TriCoreISelAddressMode) :=
    match MatchAddress_switch M A with
    | Return failed A' => (failed, A')
    | Break A' => MatchAddressBase M A'
    end in
  match N with
  | Constant VT Val =>
      let Val := to_uint64 (getSExtValue VT Val) in
      Return false (add_Disp AM Val)
  | Wrapper _ =>
      let '(failed, AM) := MatchWrapper N AM in
      if negb failed then Return false AM else Break AM
  | FrameIndex FI =>
      match BaseType AM, Base_Reg AM with
      | RegBase, None =>
          Return false
            (set_Base_FrameIndex (set_BaseType AM FrameIndexBase) (Some FI))
      | _, _ => Break AM
      end
  | ADD Op0 Op1 =>
      let Backup := AM in
      let '(f0, AM) := MatchAddress Op0 AM in
      let '(f1, AM) := if negb f0 then MatchAddress Op1 AM else (true, AM) in
      if negb f0 && negb f1 then Return false AM
      else
        let AM := Backup in
        let '(f1, AM) := MatchAddress Op1 AM in
        let '(f0, AM) := if negb f1 then MatchAddress Op0 AM else (true, AM) in
        if negb f1 && negb f0 then Return false AM
        else Break Backup
  | OR Op0 Op1 =>
      match Op1 with
      | Constant VT Val =>
          let Backup := AM in
          let Offset := to_uint64 (getSExtValue VT Val) in
          let '(f0, AM) := MatchAddress Op0 AM in
          if negb f0 && negb (isSome (GV AM)) && MaskedValueIsZero Op0 VT Val
          then Return false (add_Disp AM Offset)
          else Break Backup
      | _ => Break AM
      end
  | _ => Break AM
  end.

Definition MatchAddress (N : SDValue) (AM : TriCoreISelAddressMode)
  : bool * TriCoreISelAddressMode :=
  match MatchAddress_switch N AM with
  | Return failed AM' => (failed, AM')
  | Break AM' => MatchAddressBase N AM'
  end.

(** One ordering of the operands of an [ADD], as in
    [!MatchAddress(A, AM) && !MatchAddress(B, AM)]: the first operand, then
    the second one against the mode the first one left. *)
Definition match_in_order (A B : SDValue) (AM : TriCoreISelAddressMode)
  : option TriCoreISelAddressMode :=
  match MatchAddress A AM with
  | (false, AM1) =>
      match MatchAddress B AM1 with
      | (false, AM2) => Some AM2
      | (true, _) => None
      end
  | (true, _) => None
  end.

End Matcher.

(** ** Bit helpers of the constant materialiser *)

(** Index of the least significant 1-bit of a positive number. *)
Fixpoint pos_ctz (p : positive) : Z :=
  match p with
  | xO q => 1 + pos_ctz q
  | _ => 0
  end.

(** [getFFS]: [__builtin_ffs] on the 32 bits of [v]: one plus the index of
    the least significant 1-bit, or zero if [v] is zero. *)
Definition getFFS (v : Z) : Z :=
  match to_uint32 v with
  | Zpos p => 1 + pos_ctz p
  | _ => 0
  end.

(** [getNumSetBits]: the parallel bit count on [unsigned int]. *)
Definition getNumSetBits (v : Z) : Z :=
  let v := to_uint32 v in
  let v := to_uint32 (v - Z.land (Z.shiftr v 1) 0x55555555) in
  let v := to_uint32 (Z.land v 0x33333333 + Z.land (Z.shiftr v 2) 0x33333333) in
  let c :=
    Z.shiftr
      (to_uint32 (Z.land (to_uint32 (v + Z.shiftr v 4)) 0xF0F0F0F * 0x1010101))
      24 in
  to_int32 c.

(** The [while (in)] loop of [getNumConsecutiveOnes] on a 32-bit [int];
    [in << 1] keeps the low 32 bits.  The loop leaves after at most 32
    rounds (lemma [getNumConsecutiveOnes_loop_fuel] below), so 32 units of
    fuel run it to its end. *)
Fixpoint getNumConsecutiveOnes_loop (fuel : nat) (in_ count : Z) : Z :=
  match fuel with
  | O => count
  | S fuel =>
      if in_ =? 0 then count
      else
        getNumConsecutiveOnes_loop fuel
          (Z.land in_ (to_int32 (Z.shiftl in_ 1))) (to_int32 (count + 1))
  end.

Definition getNumConsecutiveOnes (in_ : Z) : Z :=
  getNumConsecutiveOnes_loop 32 (to_int32 in_) 0.

(** [ipow]: the [for (int i = 0; i < base; i++) result = result << 1] loop. *)
Definition ipow (base : Z) : Z :=
  Nat.iter (Z.to_nat base) (fun result => to_int32 (Z.shiftl result 1)) 1.

(** ** Machine nodes *)

Inductive TriCoreOpc : Type :=
| IMASKrcpw | MOVrlc | MOVUrlc | MOVHrlc | ADDsrc | ADDrc | ADDIrlc.

Inductive MachineSDNode : Type :=
| MachineNode (Opc : TriCoreOpc) (VT : MVT) (Ops : list Operand)
with Operand : Type :=
| TargetConstant (VT : MVT) (Val : Z)
| Result (Node : MachineSDNode) (ResNo : nat).

(** [CurDAG->getTargetConstant(Val, DL, VT)]: the constant holds the low
    bits of [Val] that fit [VT]. *)
Definition getTargetConstant (Val : Z) (VT : MVT) : Operand :=
  TargetConstant VT (to_uint (getSizeInBits VT) Val).

(** What [SelectConstant] returns: a machine node it built, the result of
    the generic selector [SelectCode(N)], or the local [Move] that no branch
    has assigned. *)
Inductive Selection : Type :=
| Selected (Node : MachineSDNode)
| SelectCode
| UnassignedMove.

(** ** [SelectConstant] *)

(** The amount moved into the upper half-word:
    [ImmLo_ext64 = (int16_t)ImmLo; hiShift = (ImmSVal - ImmLo_ext64) >> 16;
    if (hiShift < 0) hiShift = 65536 + hiShift]. *)
Definition computeHiShift (ImmSVal ImmLo : Z) : Z :=
  let ImmLo_ext64 := to_int16 ImmLo in
  let hiShift := Z.shiftr (to_int64 (ImmSVal - ImmLo_ext64)) 16 in
  if hiShift <? 0 then to_int64 (65536 + hiShift) else hiShift.

Section SelectConstant.

Variables (VT : MVT) (Val : Z).

Let ImmVal : Z := getZExtValue VT Val.
Let ImmSVal : Z := getSExtValue VT Val.

(** The part after the [MVT::i64] block. *)
Definition SelectConstant_narrow : Selection :=
  let LoMask := 0xffff in
  let HiMask := 0xffff0000 in
  let ImmLo := Z.land ImmVal LoMask in
  let ImmSLo :=
    to_int64 (to_uint64 (Z.land (to_uint64 ImmSVal) LoMask - 65536)) in
  let ImmHi := Z.land ImmVal HiMask in
  let ConstLo := getTargetConstant ImmLo i32 in
  let ConstSImm := getTargetConstant ImmSVal i32 in
  let ConstEImm := getTargetConstant ImmVal i32 in
  let hiShift := computeHiShift ImmSVal ImmLo in
  let ConstHi := getTargetConstant hiShift i32 in
  if (ImmHi =? 0) && negb (ImmLo =? 0) then
    if (ImmSVal >=? 0) && (ImmSVal <? 32768) then
      Selected (MachineNode MOVrlc i32 [ConstEImm])
    else if (ImmSVal >=? 32768) && (ImmSVal <? 65536) then
      Selected (MachineNode MOVUrlc i32 [ConstEImm])
    else UnassignedMove
  else if negb (ImmHi =? 0) && (ImmLo =? 0) then
    Selected (MachineNode MOVHrlc i32 [ConstHi])
  else if (ImmHi =? 0) && (ImmLo =? 0) then
    Selected (MachineNode MOVrlc i32 [ConstHi])
  else
    let Move := MachineNode MOVHrlc i32 [ConstHi] in
    if (ImmSVal >=? -32768) && (ImmSVal <? 0) then
      Selected (MachineNode MOVrlc i32 [ConstSImm])
    else if ((ImmSLo >=? -8) && (ImmSLo <? 8)) || (ImmLo <? 8) then
      Selected (MachineNode ADDsrc i32 [Result Move 0; ConstLo])
    else if (ImmLo >=? 8) && (ImmLo <? 256) then
      Selected (MachineNode ADDrc i32 [Result Move 0; ConstLo])
    else
      Selected (MachineNode ADDIrlc i32 [Result Move 0; ConstLo]).

Definition SelectConstant : Selection :=
  if MVT_eqb VT i64 then
    let lowerByte := to_uint32 (Z.land ImmVal 0x00000000ffffffff) in
    let higherByte := to_uint32 (Z.shiftr ImmVal 32) in
    let width := 0 in
    if ImmVal =? 0 then
      let _constVal := getTargetConstant 0 i32 in
      let _width := getTargetConstant 0 i32 in
      let _pos := getTargetConstant 0 i32 in
      Selected (MachineNode IMASKrcpw i64 [_constVal; _pos; _width])
    else if (ImmSVal <? 0)
            || (negb (higherByte =? 0) && negb (lowerByte =? 0)) then
      SelectCode
    else if (higherByte =? 0) && negb (lowerByte =? 0) then
      let posLSB := to_uint64 (getFFS lowerByte - 1) in
      let numSetBits := to_uint64 (getNumSetBits lowerByte) in
      let numConsecBits := to_uint64 (getNumConsecutiveOnes lowerByte) in
      if negb (numSetBits =? numConsecBits) then SelectCode
      else if numConsecBits >? 4 then SelectCode
      else
        let Const4Val := ipow (to_int32 numConsecBits) - 1 in
        let _constVal := getTargetConstant Const4Val i32 in
        let _width := getTargetConstant width i32 in
        let _pos := getTargetConstant posLSB i32 in
        Selected (MachineNode IMASKrcpw i64 [_constVal; _pos; _width])
    else if negb (higherByte =? 0) && (lowerByte =? 0) then
      let posLSB := to_uint64 (getFFS higherByte - 1) in
      let numSetBits := to_uint64 (getNumSetBits higherByte) in
      let numConsecBits := to_uint64 (getNumConsecutiveOnes higherByte) in
      if negb (numSetBits =? numConsecBits) then SelectCode
      else if to_uint64 (posLSB + numConsecBits) >? 31 then SelectCode
      else
        let _constVal := getTargetConstant 0 i32 in
        let _width := getTargetConstant numConsecBits i32 in
        let _pos := getTargetConstant posLSB i32 in
        Selected (MachineNode IMASKrcpw i64 [_constVal; _pos; _width])
    else SelectConstant_narrow
  else SelectConstant_narrow.

End SelectConstant.

(** Modelled from the spec: what the masked-insert instruction computes is
    not part of the selector source.  [IMASK E[c], const4, pos, width]
    writes the mask [(2 ^ width - 1) << pos] to the upper register of the
    pair and the value [const4 << pos] to the lower one (each 32 bits); the
    result is the 64-bit content of the pair. *)
Definition IMASK_eval (const4 pos width : Z) : Z :=
  Z.shiftl (to_uint32 (Z.shiftl (2 ^ width - 1) pos)) 32
  + to_uint32 (Z.shiftl const4 pos).

(** The 64-bit value a machine node leaves in its result, for the nodes
    whose meaning is fixed here (the masked insert). *)
Definition eval_IMASK_node (n : MachineSDNode) : option Z :=
  match n with
  | MachineNode IMASKrcpw _
      [TargetConstant _ c; TargetConstant _ p; TargetConstant _ w] =>
      Some (IMASK_eval c p w)
  | _ => None
  end.

(** ** Vocabulary of the properties *)

(** The immediate of the [MOVHrlc] that a selected node contains: the node
    itself, or the first operand of the add that completes it. *)
Definition MOVH_immediate (n : MachineSDNode) : option Z :=
  match n with
  | MachineNode MOVHrlc _ [TargetConstant _ h] => Some h
  | MachineNode (ADDsrc | ADDrc | ADDIrlc) _
      [Result (MachineNode MOVHrlc _ [TargetConstant _ h]) _; _] => Some h
  | _ => None
  end.

Definition int32_range (x : Z) : Prop := - 2 ^ 31 <= x < 2 ^ 31.

(** A run of [n] consecutive 1-bits whose least significant bit has index
    [p]. *)
Definition ones_at (n p : Z) : Z := Z.shiftl (2 ^ n - 1) p.

(** Exhaustive checking over the positions [0..31] and lengths [1..32]. *)
Definition forall_runs (f : Z -> Z -> bool) : bool :=
  forallb
    (fun p => forallb (fun n => f (Z.of_nat p) (Z.of_nat n)) (seq 1 32))
    (seq 0 32).

Definition is_IMASK (s : Selection) (c p w : Z) : bool :=
  match s with
  | Selected (MachineNode IMASKrcpw i64
                [TargetConstant i32 c'; TargetConstant i32 p';
                 TargetConstant i32 w']) =>
      (c' =? c) && (p' =? p) && (w' =? w)
  | _ => false
  end.

Definition run_measured (p n : Z) : bool :=
  if p + n <=? 32 then
    (getFFS (ones_at n p) - 1 =? p)
    && (getNumSetBits (ones_at n p) =? n)
    && (getNumConsecutiveOnes (ones_at n p) =? n)
  else true.

Definition low_run_selected (p n : Z) : bool :=
  if (n <=? 4) && (p + n <=? 32) then
    is_IMASK (SelectConstant i64 (ones_at n p)) (2 ^ n - 1) p 0
    && (IMASK_eval (2 ^ n - 1) p 0 =? ones_at n p)
  else true.

Definition high_run_selected (p n : Z) : bool :=
  if p + n <=? 31 then
    is_IMASK (SelectConstant i64 (Z.shiftl (ones_at n p) 32)) 0 p n
    && (IMASK_eval 0 p n =? Z.shiftl (ones_at n p) 32)
  else true.

(** A known-zero-bits analysis that only knows the bits of constants. *)
Definition MaskedValueIsZero_constants (Op : SDValue) (VT : MVT) (Mask : Z)
  : bool :=
  match Op with
  | Constant VT' Val =>
      Z.land (getZExtValue VT' Val) (getZExtValue VT Mask) =? 0
  | _ => false
  end.

(** A mode whose base register is taken by [%reg1]. *)
Definition AM_with_base : TriCoreISelAddressMode :=
  set_Base_Reg TriCoreISelAddressMode_new (Some (CopyFromReg 1)).

(** The fields that only the constructor writes. *)
Definition same_unwritten_fields (A B : TriCoreISelAddressMode) : Prop :=
  CP B = CP A /\ ES B = ES A /\ JT B = JT A /\ BlockAddr B = BlockAddr A
  /\ Align B = Align A.

(** Once the mode holds a global symbol, a matching attempt keeps it. *)
Definition keeps_symbol (A B : TriCoreISelAddressMode) : Prop :=
  forall g, GV A = Some g -> GV B = Some g.

(** The modes that occur while [SelectAddr_new] runs: the freshly
    constructed one, and whatever the three matcher functions hand back
    when started on such a mode. *)
Inductive Reachable (MaskedValueIsZero : SDValue -> MVT -> Z -> bool)
  : TriCoreISelAddressMode -> Prop :=
| Reachable_new : Reachable MaskedValueIsZero TriCoreISelAddressMode_new
| Reachable_MatchAddress N A b A' :
    Reachable MaskedValueIsZero A ->
    MatchAddress MaskedValueIsZero N A = (b, A') ->
    Reachable MaskedValueIsZero A'
| Reachable_MatchWrapper N A b A' :
    Reachable MaskedValueIsZero A ->
    MatchWrapper N A = (b, A') ->
    Reachable MaskedValueIsZero A'
| Reachable_MatchAddressBase N A b A' :
    Reachable MaskedValueIsZero A ->
    MatchAddressBase N A = (b, A') ->
    Reachable MaskedValueIsZero A'.

(** The mode after matching the address of the global [g]. *)
Definition AM_with_symbol : TriCoreISelAddressMode :=
  snd (MatchAddress MaskedValueIsZero_constants
         (Wrapper (GlobalAddress "g"%string 0)) TriCoreISelAddressMode_new).

(** The leaves of a tree of [ADD] nodes that are not constants, from left
    to right, and the sum of the sign-extended values of those that are. *)
Fixpoint nonconst_leaves (N : SDValue) : list SDValue :=
  match N with
  | ADD A B => nonconst_leaves A ++ nonconst_leaves B
  | Constant _ _ => []
  | _ => [N]
  end.

Fixpoint const_sum (N : SDValue) : Z :=
  match N with
  | ADD A B => const_sum A + const_sum B
  | Constant VT Val => getSExtValue VT Val
  | _ => 0
  end.

(** A node whose value simply lives in a register as far as the matcher is
    concerned: its opcode is none of those the [switch] lists. *)
Definition isRegisterValued (N : SDValue) : bool :=
  match N with
  | Constant _ _ | FrameIndex _ | Wrapper _ | ADD _ _ | OR _ _ => false
  | _ => true
  end.

(** The base slot filled with the leaf [L]. *)
Definition claim_base (L : SDValue) (AM : TriCoreISelAddressMode)
  : TriCoreISelAddressMode :=
  match L with
  | FrameIndex FI =>
      set_Base_FrameIndex (set_BaseType AM FrameIndexBase) (Some FI)
  | _ => set_Base_Reg (set_BaseType AM RegBase) (Some L)
  end.

Definition isBaseLeaf (L : SDValue) : bool :=
  match L with
  | FrameIndex _ => true
  | _ => isRegisterValued L
  end.

(** ** Vocabulary of the further properties *)

(** "Is the base register already occupied?", negated: the test of
    [MatchAddressBase] and of the [FrameIndex] case. *)
Definition base_free (AM : TriCoreISelAddressMode) : bool :=
  match BaseType AM, Base_Reg AM with
  | RegBase, None => true
  | _, _ => false
  end.

(** Every leaf of the [ADD] tree that is not a constant is a frame index or
    a register-valued node. *)
Definition all_base_leaves (N : SDValue) : bool :=
  forallb isBaseLeaf (nonconst_leaves N).

(** The fields of the base slot agree. *)
Definition same_base (A B : TriCoreISelAddressMode) : Prop :=
  BaseType B = BaseType A /\ Base_Reg B = Base_Reg A
  /\ Base_FrameIndex B = Base_FrameIndex A.

(** The struct [Base] "is really a union, discriminated by BaseType": with
    a frame-index base there is an index and no register node, with a
    register base no index has been written. *)
Definition base_is_union (AM : TriCoreISelAddressMode) : Prop :=
  match BaseType AM with
  | FrameIndexBase => Base_Reg AM = None /\ isSome (Base_FrameIndex AM) = true
  | RegBase => Base_FrameIndex AM = None
  end.

(** ** [SelectAddr_new] and [SelectAddr] *)

(** The base operand handed to the memory instruction: a node of the input
    graph, the register node [CurDAG->getRegister(Reg, VT)], the target
    frame index [CurDAG->getTargetFrameIndex(FI, PtrVT)], or that call on
    the [int] the constructor of the mode left unset. *)
Inductive AddrBase : Type :=
| BaseNode (N : SDValue)
| Register (Reg : Z) (VT : MVT)
| TargetFrameIndex (FI : Z)
| UnsetFrameIndex.

Section SelectAddr.

Variable MaskedValueIsZero : SDValue -> MVT -> Z -> bool.

(** [N.getValueType()] *)
Variable getValueType : SDValue -> MVT.

(** [SelectAddr_new]: [None] is [return false]; [Some (Base, Disp)] is
    [return true] with the two by-reference results.  The register node
    that the source stores into [AM.Base.Reg] when no base was matched is
    read back on the next line only, so it appears here as the operand.
    The displacement operand is the one [getTargetConstant] builds; in a
    build with assertions that call first tests the range of [AM.Disp]
    ([getConstant_fits] below) and stops when it is outside. *)
Definition SelectAddr_new (N : SDValue) : option (AddrBase * Operand) :=
  let AM := TriCoreISelAddressMode_new in
  let '(failed, AM) := MatchAddress MaskedValueIsZero N AM in
  if failed then None
  else
    let VT := getValueType N in
    let Base :=
      match BaseType AM with
      | FrameIndexBase =>
          match Base_FrameIndex AM with
          | Some FI => TargetFrameIndex FI
          | None => UnsetFrameIndex
          end
      | RegBase =>
          match Base_Reg AM with
          | Some R => BaseNode R
          | None => Register 0 VT
          end
      end in
    if isSome (GV AM) then Some (BaseNode N, getTargetConstant (Disp AM) i32)
    else Some (Base, getTargetConstant (Disp AM) i32).

(** [SelectAddr]: [return SelectAddr_new(Addr, Base, Offset);] (the
    statements after it are never run). *)
Definition SelectAddr (Addr : SDValue) : option (AddrBase * Operand) :=
  SelectAddr_new Addr.

End SelectAddr.

(** The base operand that stands for a base leaf. *)
Definition leaf_operand (L : SDValue) : AddrBase :=
  match L with
  | FrameIndex FI => TargetFrameIndex FI
  | _ => BaseNode L
  end.

(** Shapes of the selected code: one instruction whose operands are all
    constants, or one add of a constant to the result of a [MOVHrlc]. *)
Definition operand_is_constant (o : Operand) : bool :=
  match o with
  | TargetConstant _ _ => true
  | Result _ _ => false
  end.

Definition single_instruction (n : MachineSDNode) : bool :=
  match n with
  | MachineNode _ _ Ops => forallb operand_is_constant Ops
  end.

Definition movh_then_add (n : MachineSDNode) : bool :=
  match n with
  | MachineNode (ADDsrc | ADDrc | ADDIrlc) _
      [Result (MachineNode MOVHrlc _ [TargetConstant _ _]) 0%nat;
       TargetConstant _ _] => true
  | _ => false
  end.

(** The add instruction that [SelectConstant] picks for the low half-word
    [lo] of a 32-bit constant. *)
Definition add_variant (lo : Z) : TriCoreOpc :=
  if (lo <? 8) || (65528 <=? lo) then ADDsrc
  else if lo <? 256 then ADDrc
  else ADDIrlc.

(** ** Reference meaning of the bit helpers *)

(** Number of 1-bits among the bits [0 .. n-1] of [v]. *)
Fixpoint popcount_upto (n : nat) (v : Z) : Z :=
  match n with
  | O => 0
  | S k => popcount_upto k v + (if Z.testbit v (Z.of_nat k) then 1 else 0)
  end.

(** The 32-bit word [v] has [n] consecutive 1-bits somewhere. *)
Definition has_run (v n : Z) : Prop :=
  exists i, 0 <= i /\ i + n <= 32
            /\ forall j, i <= j < i + n -> Z.testbit v j = true.

(** [f] holds for the [k] integers from [x] on. *)
Fixpoint all_from (k : nat) (x : Z) (f : Z -> bool) : bool :=
  match k with
  | O => true
  | S k' => f x && all_from k' (x + 1) f
  end.

(** [getNumSetBits] on one 16-bit half of the word. *)
Definition half_step1 (x : Z) : Z := x - Z.land (Z.shiftr x 1) 0x5555.
Definition half_step2 (x : Z) : Z :=
  Z.land x 0x3333 + Z.land (Z.shiftr x 2) 0x3333.
Definition half_step3 (x : Z) : Z := Z.land (x + Z.shiftr x 4) 0x0F0F.
Definition half_count (x : Z) : Z :=
  let y := half_step3 (half_step2 (half_step1 x)) in y mod 256 + y / 256.

Definition half_check (x : Z) : bool :=
  let s1 := half_step1 x in
  let s2 := half_step2 s1 in
  let s3 := half_step3 s2 in
  (0 <=? s1) && (s1 <? 65536)
  && (0 <=? s2) && (s2 <=? 0x4444) && (s2 mod 16 <=? 4)
  && (0 <=? s3) && (s3 mod 256 <=? 8) && (s3 / 256 <=? 8)
  && (half_count x =? popcount_upto 16 x).

(** The loop invariant: after [k] rounds, bit [j] of the loop variable says
    that the [k + 1] bits of [v] ending at [j] are all set. *)
Definition run_ending_at (v k j : Z) : Prop :=
  k <= j /\ forall t, j - k <= t <= j -> Z.testbit v t = true.

Definition loop_inv (v k x : Z) : Prop :=
  forall j, 0 <= j < 32 -> (Z.testbit x j = true <-> run_ending_at v k j).

(** The 64-bit values that one masked insert produces: zero, a run of at
    most 4 ones in the low word, or a run in the high word that ends below
    bit 31 of that word. *)
Definition IMASK_value (v : Z) : Prop :=
  v = 0
  \/ exists p n,
      0 <= p /\ 1 <= n
      /\ ((n <= 4 /\ p + n <= 32 /\ v = ones_at n p)
          \/ (p + n <= 31 /\ v = Z.shiftl (ones_at n p) 32)).

(** ** Addresses as the target sees them *)

(** Number of constant leaves of a tree of [ADD] nodes. *)
Fixpoint count_constants (N : SDValue) : Z :=
  match N with
  | ADD A B => count_constants A + count_constants B
  | Constant _ _ => 1
  | _ => 0
  end.

(** Every constant leaf of the tree has at most 32 bits.  A TriCore pointer
    is an [i32] ([getPointerTy], and the [MVT::i32] of the displacement in
    [SelectAddr_new]) and the operands of an [ISD::ADD] have the type of its
    result, so the constants under an address are of this kind. *)
Fixpoint pointer_constants (N : SDValue) : bool :=
  match N with
  | ADD A B => pointer_constants A && pointer_constants B
  | Constant VT _ => getSizeInBits VT <=? 32
  | _ => true
  end.

(** The test at the head of [SelectionDAG::getConstant(uint64_t Val, ...,
    EVT VT)], through which [getTargetConstant] builds its node:
    [assert(EltVT.getSizeInBits() >= 64 ||
            (uint64_t)((int64_t)Val >> EltVT.getSizeInBits()) + 1 < 2)].
    That function belongs to LLVM's SelectionDAG library and not to the
    file studied here; the test is written after it.  With assertions
    compiled in, [getTargetConstant] stops where it is [false]; without
    them the constant is truncated, which is what [getTargetConstant]
    above computes. *)
Definition getConstant_fits (Val : Z) (VT : MVT) : bool :=
  (64 <=? getSizeInBits VT)
  || (to_uint64 (to_uint64 (Z.shiftr (to_int64 Val) (getSizeInBits VT)) + 1)
      <? 2).

(** * Properties *)

(** ** Arithmetic of the fixed-width conversions *)

Ltac unfold_int :=
  unfold to_int64, to_int32, to_int16, to_uint64, to_uint32, to_uint16,
    to_int, to_uint in *;
  simpl Z.sub in *;
  repeat match goal with
    | |- context [2 ^ ?k] =>
        let c := eval compute in (2 ^ k) in change (2 ^ k) with c
    | H : context [2 ^ ?k] |- _ =>
        let c := eval compute in (2 ^ k) in change (2 ^ k) with c in H
    end.

Ltac int_arith := unfold_int; Z.div_mod_to_equations; lia.

Lemma to_int64_small x : INT64_MIN <= x <= INT64_MAX -> to_int64 x = x.
Proof. unfold INT64_MIN, INT64_MAX. intros H. int_arith. Qed.

Lemma to_int64_range x : INT64_MIN <= to_int64 x <= INT64_MAX.
Proof. unfold INT64_MIN, INT64_MAX. int_arith. Qed.

Lemma to_int64_add_l x y : to_int64 (to_int64 x + y) = to_int64 (x + y).
Proof.
  unfold to_int64, to_int.
  replace ((x + 2 ^ (64 - 1)) mod 2 ^ 64 - 2 ^ (64 - 1) + y + 2 ^ (64 - 1))
    with ((x + 2 ^ (64 - 1)) mod 2 ^ 64 + y) by ring.
  rewrite Z.add_mod_idemp_l by (compute; discriminate).
  f_equal. f_equal. ring.
Qed.

Lemma to_int64_add_uint64 x y : to_int64 (x + to_uint64 y) = to_int64 (x + y).
Proof.
  unfold to_int64, to_uint64, to_int, to_uint.
  replace (x + y mod 2 ^ 64 + 2 ^ (64 - 1))
    with (x + 2 ^ (64 - 1) + y mod 2 ^ 64) by ring.
  rewrite Z.add_mod_idemp_r by (compute; discriminate).
  f_equal. f_equal. ring.
Qed.

Lemma getSExtValue_range VT Val :
  - 2 ^ 63 <= getSExtValue VT Val < 2 ^ 63.
Proof. unfold getSExtValue. destruct VT; simpl getSizeInBits; int_arith. Qed.

Lemma land_LoMask x : Z.land x 0xffff = x mod 2 ^ 16.
Proof. change 0xffff with (Z.ones 16). apply Z.land_ones. lia. Qed.

Lemma land_HiMask x : Z.land x 0xffff0000 = (x / 2 ^ 16) mod 2 ^ 16 * 2 ^ 16.
Proof.
  change 0xffff0000 with (Z.shiftl (Z.ones 16) 16).
  rewrite <- Z.shiftl_mul_pow2, <- Z.land_ones, <- Z.shiftr_div_pow2 by lia.
  apply Z.bits_inj'. intros n Hn.
  rewrite Z.land_spec.
  destruct (Z.ltb_spec n 16) as [Hlt | Hge].
  - rewrite !Z.shiftl_spec_low by lia. apply andb_false_r.
  - rewrite !Z.shiftl_spec by lia.
    rewrite Z.land_spec, Z.shiftr_spec by lia.
    replace (n - 16 + 16) with n by ring. reflexivity.
Qed.

Lemma land_uint32_mask x : Z.land x 0x00000000ffffffff = x mod 2 ^ 32.
Proof. change 0x00000000ffffffff with (Z.ones 32). apply Z.land_ones. lia. Qed.

(** ** Narrow constants: the move instructions *)

Section NarrowConstants.

Variable v : Z.
Hypothesis v_range : 0 <= v < 2 ^ 32.

Lemma ImmVal_i32 : getZExtValue i32 v = v.
Proof. unfold getZExtValue. simpl getSizeInBits. int_arith. Qed.

Lemma ImmSVal_i32 :
  getSExtValue i32 v = if v <? 2 ^ 31 then v else v - 2 ^ 32.
Proof.
  unfold getSExtValue. simpl getSizeInBits.
  destruct (Z.ltb_spec v (2 ^ 31)); int_arith.
Qed.

End NarrowConstants.

(** The move-high amount of a 32-bit constant, in closed form. *)
Lemma computeHiShift_i32 v :
  0 <= v < 2 ^ 32 ->
  computeHiShift (getSExtValue i32 v) (Z.land (getZExtValue i32 v) 0xffff)
  = ((v + 2 ^ 15) / 2 ^ 16) mod 2 ^ 16.
Proof.
  intros Hv. rewrite ImmVal_i32, ImmSVal_i32, land_LoMask by assumption.
  unfold computeHiShift.
  assert (Hd : exists k, -32768 <= k <= 32768 /\
            (if v <? 2 ^ 31 then v else v - 2 ^ 32) - to_int16 (v mod 2 ^ 16)
            = k * 2 ^ 16 /\
            ((v + 2 ^ 15) / 2 ^ 16) mod 2 ^ 16
            = if k <? 0 then 65536 + k else k).
  { destruct (Z.ltb_spec v (2 ^ 31)).
    - exists ((v + 2 ^ 15) / 2 ^ 16).
      destruct (Z.ltb_spec ((v + 2 ^ 15) / 2 ^ 16) 0); int_arith.
    - exists ((v + 2 ^ 15) / 2 ^ 16 - 65536).
      destruct (Z.ltb_spec ((v + 2 ^ 15) / 2 ^ 16 - 65536) 0); int_arith. }
  destruct Hd as (k & Hk & Hd & Hres). rewrite Hd, Hres.
  rewrite to_int64_small by (unfold INT64_MIN, INT64_MAX; lia).
  rewrite Z.shiftr_div_pow2, Z.div_mul by lia.
  destruct (Z.ltb_spec k 0);
    [apply to_int64_small; unfold INT64_MIN, INT64_MAX |]; lia.
Qed.

Lemma computeHiShift_i32_range v :
  0 <= v < 2 ^ 32 ->
  0 <= computeHiShift (getSExtValue i32 v) (Z.land (getZExtValue i32 v) 0xffff)
    < 2 ^ 16.
Proof.
  intros Hv. rewrite computeHiShift_i32 by assumption.
  apply Z.mod_pos_bound. lia.
Qed.

Lemma computeHiShift_i32_reconstructs v :
  0 <= v < 2 ^ 32 ->
  (computeHiShift (getSExtValue i32 v) (Z.land (getZExtValue i32 v) 0xffff)
     * 2 ^ 16 + to_int16 (Z.land v 0xffff)) mod 2 ^ 32 = v mod 2 ^ 32.
Proof.
  intros Hv. rewrite computeHiShift_i32, land_LoMask by assumption.
  int_arith.
Qed.

Ltac bool_prop H :=
  rewrite ?Z.geb_leb, ?Z.gtb_ltb in H;
  repeat first
    [ rewrite andb_true_iff in H | rewrite andb_false_iff in H
    | rewrite orb_true_iff in H | rewrite orb_false_iff in H
    | rewrite negb_true_iff in H | rewrite negb_false_iff in H
    | rewrite Z.eqb_eq in H | rewrite Z.eqb_neq in H
    | rewrite Z.ltb_lt in H | rewrite Z.ltb_ge in H
    | rewrite Z.leb_le in H | rewrite Z.leb_gt in H ].

(** Decide the condition of the outermost [if] of the goal, or of a
    hypothesis that equates an [if] with a result. *)
Ltac step_if :=
  match goal with
  | |- (if ?c then _ else _) = _ =>
      let H := fresh "Hc" in destruct c eqn:H; bool_prop H
  | H0 : (if ?c then _ else _) = _ |- _ =>
      let H := fresh "Hc" in destruct c eqn:H; bool_prop H
  end.

Lemma getTargetConstant_i32 x :
  0 <= x < 2 ^ 32 -> getTargetConstant x i32 = TargetConstant i32 x.
Proof.
  intros Hx. unfold getTargetConstant. simpl getSizeInBits.
  f_equal. int_arith.
Qed.

Lemma SelectConstant_i32_narrow v :
  SelectConstant i32 v = SelectConstant_narrow i32 v.
Proof. reflexivity. Qed.

(** C8. A 32-bit constant with zero high half-word is materialised by one
    move: [MOVrlc] carrying the value when the low half-word is in
    [0, 32768), [MOVUrlc] carrying the value when it is in
    [32768, 65536). *)
Theorem SelectConstant_small_positive v :
  (0 <= v < 32768 ->
   SelectConstant i32 v
   = Selected (MachineNode MOVrlc i32 [TargetConstant i32 v]))
  /\ (32768 <= v < 65536 ->
      SelectConstant i32 v
      = Selected (MachineNode MOVUrlc i32 [TargetConstant i32 v])).
Proof.
  split; intros Hv.
  all: assert (Hr : 0 <= v < 2 ^ 32) by lia.
  all: pose proof (computeHiShift_i32 v Hr) as Hhi.
  all: rewrite SelectConstant_i32_narrow; unfold SelectConstant_narrow.
  all: cbv zeta; rewrite Hhi.
  all: rewrite ImmVal_i32, ImmSVal_i32, land_LoMask, land_HiMask by assumption.
  all: replace (v mod 2 ^ 16) with v by int_arith.
  all: replace (v / 2 ^ 16 mod 2 ^ 16 * 2 ^ 16) with 0 by int_arith.
  all: replace (v <? 2 ^ 31) with true by (symmetry; apply Z.ltb_lt; lia).
  all: rewrite (getTargetConstant_i32 v) by assumption.
  all: repeat (step_if; try lia); try reflexivity.
  assert (v = 0) by lia. subst v. reflexivity.
Qed.

Lemma SelectConstant_small_positive_witness :
  SelectConstant i32 1234
  = Selected (MachineNode MOVrlc i32 [TargetConstant i32 1234])
  /\ SelectConstant i32 40000
     = Selected (MachineNode MOVUrlc i32 [TargetConstant i32 40000]).
Proof.
  split.
  - apply (proj1 (SelectConstant_small_positive 1234)). lia.
  - apply (proj2 (SelectConstant_small_positive 40000)). lia.
Defined.

(** The all-zero word does not take the move-high branch: the source tests
    [ImmHi && (ImmLo == 0)] first and only then [(ImmHi == 0) && (ImmLo ==
    0)], which returns a [MOVrlc]. *)
Lemma SelectConstant_zero_is_not_MOVH :
  SelectConstant i32 0
  = Selected (MachineNode MOVrlc i32 [TargetConstant i32 0])
  /\ SelectConstant i32 0
     <> Selected (MachineNode MOVHrlc i32 [TargetConstant i32 (0 / 2 ^ 16)]).
Proof. split; [reflexivity | discriminate]. Qed.

(** C7 (amended). A 32-bit constant whose low 16 bits are zero is
    materialised by one instruction: when the constant is not zero, a
    [MOVHrlc] whose immediate is the high 16 bits; when it is zero, a
    [MOVrlc] with immediate zero. *)
Theorem SelectConstant_low_half_zero v :
  0 <= v < 2 ^ 32 -> v mod 2 ^ 16 = 0 ->
  (v <> 0 ->
   SelectConstant i32 v
   = Selected (MachineNode MOVHrlc i32 [TargetConstant i32 (v / 2 ^ 16)]))
  /\ (v = 0 ->
      SelectConstant i32 v
      = Selected (MachineNode MOVrlc i32 [TargetConstant i32 0])).
Proof.
  intros Hr Hlo. split; [intros Hnz | intros ->; reflexivity].
  pose proof (computeHiShift_i32 v Hr) as Hhi.
  rewrite SelectConstant_i32_narrow; unfold SelectConstant_narrow.
  cbv zeta; rewrite Hhi.
  rewrite ImmVal_i32, ImmSVal_i32, land_LoMask, land_HiMask by assumption.
  rewrite Hlo.
  replace ((v + 2 ^ 15) / 2 ^ 16 mod 2 ^ 16) with (v / 2 ^ 16) by int_arith.
  replace (v / 2 ^ 16 mod 2 ^ 16) with (v / 2 ^ 16) by int_arith.
  rewrite (getTargetConstant_i32 (v / 2 ^ 16)) by int_arith.
  repeat (step_if; try lia); try reflexivity.
  all: exfalso; int_arith.
Qed.

Lemma SelectConstant_low_half_zero_witness :
  SelectConstant i32 0x12340000
  = Selected (MachineNode MOVHrlc i32 [TargetConstant i32 0x1234]).
Proof.
  apply (proj1 (SelectConstant_low_half_zero 0x12340000
                  ltac:(lia) ltac:(reflexivity))).
  discriminate.
Defined.

(** C10. Whenever the materialisation of a 32-bit constant contains a
    move-high instruction (alone, or below one of the three adds), its
    immediate is the computed [hiShift], lies in [0, 2^16), and together
    with the sign-extended low 16 bits rebuilds the constant modulo
    2^32. *)
Theorem SelectConstant_MOVH_reconstructs v n h :
  0 <= v < 2 ^ 32 ->
  SelectConstant i32 v = Selected n ->
  MOVH_immediate n = Some h ->
  h = computeHiShift (getSExtValue i32 v) (Z.land (getZExtValue i32 v) 0xffff)
  /\ 0 <= h < 2 ^ 16
  /\ (h * 2 ^ 16 + to_int16 (Z.land v 0xffff)) mod 2 ^ 32 = v mod 2 ^ 32.
Proof.
  intros Hr Hsel Hn.
  pose proof (computeHiShift_i32_range v Hr) as Hrange.
  pose proof (computeHiShift_i32_reconstructs v Hr) as Hrec.
  assert (Hh : h = computeHiShift (getSExtValue i32 v)
                     (Z.land (getZExtValue i32 v) 0xffff)).
  { rewrite SelectConstant_i32_narrow in Hsel.
    unfold SelectConstant_narrow in Hsel. cbv zeta in Hsel.
    rewrite (getTargetConstant_i32 (computeHiShift _ _)) in Hsel by lia.
    repeat (step_if; try discriminate);
      injection Hsel as <-; simpl in Hn; congruence. }
  subst h. auto.
Qed.

Lemma SelectConstant_MOVH_reconstructs_witness :
  0x1235 = computeHiShift (getSExtValue i32 0x1234ffff)
             (Z.land (getZExtValue i32 0x1234ffff) 0xffff)
  /\ 0 <= 0x1235 < 2 ^ 16
  /\ (0x1235 * 2 ^ 16 + to_int16 (Z.land 0x1234ffff 0xffff)) mod 2 ^ 32
     = 0x1234ffff mod 2 ^ 32.
Proof.
  apply (SelectConstant_MOVH_reconstructs 0x1234ffff
           (MachineNode ADDsrc i32
              [Result (MachineNode MOVHrlc i32 [TargetConstant i32 0x1235]) 0;
               TargetConstant i32 0xffff])).
  - lia.
  - reflexivity.
  - reflexivity.
Defined.

(** ** The bit helpers *)

Lemma to_int32_range x : int32_range (to_int32 x).
Proof. unfold int32_range. int_arith. Qed.

Lemma int32_range_shiftr x :
  int32_range x <-> (Z.shiftr x 31 = 0 \/ Z.shiftr x 31 = -1).
Proof.
  unfold int32_range. rewrite Z.shiftr_div_pow2 by lia.
  split; intros H; int_arith.
Qed.

Lemma land_int32_range x y :
  int32_range x -> int32_range y -> int32_range (Z.land x y).
Proof.
  rewrite !int32_range_shiftr, Z.shiftr_land.
  intros [-> | ->] [-> | ->]; simpl; auto.
Qed.

Lemma land_divisible x y j :
  0 <= j -> y mod 2 ^ j = 0 -> Z.land x y mod 2 ^ j = 0.
Proof.
  intros Hj Hy. rewrite <- Z.land_ones in * by assumption.
  rewrite <- Z.land_assoc, Hy. apply Z.land_0_r.
Qed.

Lemma shl1_divisible x k :
  0 <= k < 32 -> x mod 2 ^ k = 0 ->
  to_int32 (Z.shiftl x 1) mod 2 ^ (k + 1) = 0.
Proof.
  intros Hk Hx. rewrite Z.shiftl_mul_pow2 by lia.
  apply Z.mod_divide in Hx; [| lia]. destruct Hx as [a ->].
  unfold to_int32, to_int. simpl (32 - 1).
  apply Z.mod_divide; [lia |].
  assert (H32 : 2 ^ 32 = 2 ^ (k + 1) * 2 ^ (31 - k)).
  { rewrite <- Z.pow_add_r by lia. f_equal. lia. }
  assert (H31 : 2 ^ 31 = 2 ^ k * 2 ^ (31 - k)).
  { rewrite <- Z.pow_add_r by lia. f_equal. lia. }
  assert (Hk1 : 2 ^ (k + 1) = 2 * 2 ^ k).
  { rewrite Z.pow_add_r by lia. lia. }
  rewrite Z.mod_eq by lia.
  set (q := (a * 2 ^ k * 2 ^ 1 + 2 ^ 31) / 2 ^ 32).
  exists (a - 2 ^ (31 - k) * q).
  rewrite H32 at 1. rewrite Hk1. change (2 ^ 1) with 2. ring.
Qed.

Lemma int32_multiple_zero x k :
  32 <= k -> int32_range x -> x mod 2 ^ k = 0 -> x = 0.
Proof.
  intros Hk Hr Hdiv. unfold int32_range in Hr.
  assert (Hp : 2 ^ 32 <= 2 ^ k) by (apply Z.pow_le_mono_r; lia).
  change (2 ^ 32) with 4294967296 in Hp. change (2 ^ 31) with 2147483648 in Hr.
  apply Z.mod_divide in Hdiv; [| lia]. destruct Hdiv as [a ->].
  destruct (Z.eq_dec a 0) as [-> | Ha]; [reflexivity | exfalso].
  assert (a <= -1 \/ 1 <= a) as [H | H] by lia; nia.
Qed.

(** After [k] rounds the loop variable has its [k] low bits clear. *)
Lemma getNumConsecutiveOnes_loop_fuel fuel :
  forall (k : Z) in_ count extra,
    0 <= k -> 32 <= k + Z.of_nat fuel ->
    int32_range in_ -> in_ mod 2 ^ k = 0 ->
    getNumConsecutiveOnes_loop (fuel + extra) in_ count
    = getNumConsecutiveOnes_loop fuel in_ count.
Proof.
  induction fuel as [| fuel IH]; intros k in_ count extra Hk Hfuel Hr Hdiv.
  - assert (in_ = 0) by (apply (int32_multiple_zero in_ k); assumption || lia).
    subst in_. simpl. destruct extra; reflexivity.
  - simpl. destruct (Z.eqb_spec in_ 0) as [| Hnz]; [reflexivity |].
    assert (Hk32 : k < 32).
    { destruct (Z.lt_ge_cases k 32) as [|Hge]; [assumption | exfalso].
      apply Hnz, (int32_multiple_zero in_ k); assumption. }
    apply (IH (k + 1)); try lia.
    + apply land_int32_range; [assumption | apply to_int32_range].
    + apply land_divisible; [lia |]. apply shl1_divisible; [lia | assumption].
Qed.

(** The loop of [getNumConsecutiveOnes] is over within its 32 rounds: more
    fuel never changes the result. *)
Lemma getNumConsecutiveOnes_total in_ extra :
  getNumConsecutiveOnes_loop (32 + extra) (to_int32 in_) 0
  = getNumConsecutiveOnes in_.
Proof.
  unfold getNumConsecutiveOnes.
  apply (getNumConsecutiveOnes_loop_fuel 32 0); try lia.
  - apply to_int32_range.
  - apply Z.mod_1_r.
Qed.

Lemma getNumConsecutiveOnes_loop_range fuel :
  forall in_ count,
    0 <= count -> count + Z.of_nat fuel < 2 ^ 31 ->
    0 <= getNumConsecutiveOnes_loop fuel in_ count <= count + Z.of_nat fuel.
Proof.
  induction fuel as [| fuel IH]; intros in_ count Hc Hb;
    cbn [getNumConsecutiveOnes_loop].
  - lia.
  - rewrite Nat2Z.inj_succ in *.
    destruct (in_ =? 0); [lia |].
    replace (to_int32 (count + 1)) with (count + 1) by int_arith.
    specialize (IH (Z.land in_ (to_int32 (Z.shiftl in_ 1))) (count + 1)).
    lia.
Qed.

Lemma getNumConsecutiveOnes_range in_ : 0 <= getNumConsecutiveOnes in_ <= 32.
Proof.
  unfold getNumConsecutiveOnes.
  pose proof (getNumConsecutiveOnes_loop_range 32 (to_int32 in_) 0
                ltac:(lia) ltac:(reflexivity)) as H.
  change (0 + Z.of_nat 32) with 32 in H. exact H.
Qed.

Lemma pos_ctz_bound p : 0 <= pos_ctz p /\ 2 ^ pos_ctz p <= Zpos p.
Proof.
  induction p as [p IH | p IH |]; cbn [pos_ctz].
  - change (2 ^ 0) with 1. lia.
  - destruct IH as [IH0 IH1]. split; [lia |].
    rewrite Z.pow_add_r by lia. change (2 ^ 1) with 2. lia.
  - change (2 ^ 0) with 1. lia.
Qed.

Lemma getFFS_range v : 0 <= getFFS v <= 32.
Proof.
  unfold getFFS. assert (Hu : 0 <= to_uint32 v < 2 ^ 32) by int_arith.
  destruct (to_uint32 v) as [| p | p]; try lia.
  destruct (pos_ctz_bound p) as [H0 H1]. split; [lia |].
  assert (pos_ctz p < 32); [| lia].
  apply (Z.pow_lt_mono_r_iff 2); lia.
Qed.

Lemma getFFS_nonzero v : to_uint32 v <> 0 -> 1 <= getFFS v.
Proof.
  unfold getFFS. assert (Hu : 0 <= to_uint32 v < 2 ^ 32) by int_arith.
  destruct (to_uint32 v) as [| p | p]; try lia.
  destruct (pos_ctz_bound p). lia.
Qed.

(** ** Wide constants: the masked insert *)

Lemma SelectConstant_narrow_not_IMASK VT Val vt ops :
  SelectConstant_narrow VT Val <> Selected (MachineNode IMASKrcpw vt ops).
Proof.
  unfold SelectConstant_narrow. cbv zeta. intros H.
  repeat (step_if; try discriminate).
Qed.

Lemma ipow_small n :
  0 <= n <= 4 -> ipow (to_int32 n) = 2 ^ n /\ 1 <= 2 ^ n <= 16.
Proof.
  intros Hn.
  assert (n = 0 \/ n = 1 \/ n = 2 \/ n = 3 \/ n = 4) as H by lia.
  repeat (destruct H as [-> | H]); try subst n; split; try reflexivity;
    simpl; lia.
Qed.

Lemma to_uint64_small x : 0 <= x < 2 ^ 64 -> to_uint64 x = x.
Proof. intros H. int_arith. Qed.

Lemma to_uint32_small x : 0 <= x < 2 ^ 32 -> to_uint32 x = x.
Proof. intros H. int_arith. Qed.

Lemma to_uint32_idem x : to_uint32 (to_uint32 x) = to_uint32 x.
Proof. int_arith. Qed.

(** C3. Every [IMASKrcpw] node that [SelectConstant] builds has three
    32-bit constant operands (value, position, width) with position and
    width in [0, 31], position + width at most 31, and a value that fits
    the 4-bit field (at most 15; on the low-half path this is the bound on
    [2 ^ run - 1]); no encoding with position + width above 31 is ever
    built. *)
Theorem SelectConstant_IMASK_legal VT Val vt ops :
  SelectConstant VT Val = Selected (MachineNode IMASKrcpw vt ops) ->
  exists c p w,
    ops = [TargetConstant i32 c; TargetConstant i32 p; TargetConstant i32 w]
    /\ 0 <= p <= 31 /\ 0 <= w <= 31 /\ p + w <= 31 /\ 0 <= c <= 15.
Proof.
  unfold SelectConstant. intros H.
  destruct (MVT_eqb VT i64);
    [| exfalso; exact (SelectConstant_narrow_not_IMASK _ _ _ _ H)].
  cbv zeta in H.
  pose proof (to_uint32_idem (Z.land (getZExtValue VT Val) 0x00000000ffffffff))
    as Hlow.
  pose proof (to_uint32_idem (Z.shiftr (getZExtValue VT Val) 32)) as Hhigh.
  set (lower := to_uint32 (Z.land (getZExtValue VT Val) 0x00000000ffffffff))
    in *.
  set (higher := to_uint32 (Z.shiftr (getZExtValue VT Val) 32)) in *.
  clearbody lower higher.
  pose proof (getFFS_range lower) as Hfl.
  pose proof (getFFS_range higher) as Hfh.
  pose proof (getNumConsecutiveOnes_range lower) as Hcl.
  pose proof (getNumConsecutiveOnes_range higher) as Hch.
  step_if.
  { injection H as _ <-. exists 0, 0, 0. repeat split; lia. }
  step_if; [discriminate |].
  step_if.
  { destruct Hc1 as [_ Hnz].
    assert (Hf1 : 1 <= getFFS lower)
      by (apply getFFS_nonzero; rewrite Hlow; exact Hnz).
    rewrite (to_uint64_small (getNumConsecutiveOnes lower)) in H by lia.
    rewrite (to_uint64_small (getFFS lower - 1)) in H by lia.
    step_if; [discriminate |].
    step_if; [discriminate |].
    destruct (ipow_small (getNumConsecutiveOnes lower) ltac:(lia)) as [Hip Hb].
    rewrite Hip in H. injection H as _ <-.
    exists (2 ^ getNumConsecutiveOnes lower - 1), (getFFS lower - 1), 0.
    split; [| lia].
    rewrite !getTargetConstant_i32 by lia. reflexivity. }
  step_if; [| exfalso; exact (SelectConstant_narrow_not_IMASK _ _ _ _ H)].
  destruct Hc2 as [Hnz _].
  assert (Hf1 : 1 <= getFFS higher)
    by (apply getFFS_nonzero; rewrite Hhigh; exact Hnz).
  rewrite (to_uint64_small (getNumConsecutiveOnes higher)) in H by lia.
  rewrite (to_uint64_small (getFFS higher - 1)) in H by lia.
  rewrite (to_uint64_small (getFFS higher - 1 + getNumConsecutiveOnes higher))
    in H by lia.
  step_if; [discriminate |].
  step_if; [discriminate |].
  injection H as _ <-.
  exists 0, (getFFS higher - 1), (getNumConsecutiveOnes higher).
  split; [| lia].
  rewrite !getTargetConstant_i32 by lia. reflexivity.
Qed.

Lemma SelectConstant_IMASK_legal_witness :
  exists c p w,
    [TargetConstant i32 0; TargetConstant i32 4; TargetConstant i32 3]
    = [TargetConstant i32 c; TargetConstant i32 p; TargetConstant i32 w]
    /\ 0 <= p <= 31 /\ 0 <= w <= 31 /\ p + w <= 31 /\ 0 <= c <= 15.
Proof.
  apply (SelectConstant_IMASK_legal i64 0x7000000000 i64). reflexivity.
Defined.

Lemma forall_runs_sound f :
  forall_runs f = true ->
  forall p n, 0 <= p < 32 -> 1 <= n <= 32 -> f p n = true.
Proof.
  unfold forall_runs. intros H p n Hp Hn.
  rewrite forallb_forall in H.
  specialize (H (Z.to_nat p)). rewrite forallb_forall in H.
  specialize (H ltac:(apply in_seq; lia) (Z.to_nat n) ltac:(apply in_seq; lia)).
  rewrite !Z2Nat.id in H by lia. exact H.
Qed.

Lemma is_IMASK_sound s c p w :
  is_IMASK s c p w = true ->
  s = Selected (MachineNode IMASKrcpw i64
                  [TargetConstant i32 c; TargetConstant i32 p;
                   TargetConstant i32 w]).
Proof.
  unfold is_IMASK. intros H.
  repeat match type of H with
    | match ?x with _ => _ end = true => destruct x; try discriminate H
    end.
  bool_prop H. destruct H as [[-> ->] ->]. reflexivity.
Qed.

Lemma run_measured_all : forall_runs run_measured = true.
Proof. vm_compute. reflexivity. Qed.

Lemma low_run_selected_all : forall_runs low_run_selected = true.
Proof. vm_compute. reflexivity. Qed.

Lemma high_run_selected_all : forall_runs high_run_selected = true.
Proof. vm_compute. reflexivity. Qed.

(** On a half-word that is one run of [n] ones at position [p], the three
    helpers measure exactly the position and the run: the test "number of
    set bits = number of consecutive ones" of the source passes. *)
Lemma contiguous_run_measured p n :
  0 <= p -> 1 <= n -> p + n <= 32 ->
  getFFS (ones_at n p) - 1 = p
  /\ getNumSetBits (ones_at n p) = n
  /\ getNumConsecutiveOnes (ones_at n p) = n.
Proof.
  intros Hp Hn Hpn.
  pose proof (forall_runs_sound _ run_measured_all p n
                ltac:(lia) ltac:(lia)) as H.
  unfold run_measured in H.
  replace (p + n <=? 32) with true in H by (symmetry; apply Z.leb_le; lia).
  bool_prop H. tauto.
Qed.

(** C2. A 64-bit constant with exactly one non-zero 32-bit half, that half
    being one contiguous run of [n >= 1] ones starting at bit [p] (the
    helpers of the source then measure position [p], [n] set bits and [n]
    consecutive ones, so its "run length = number of set bits" test
    passes):
    - low half, [n <= 4]: [SelectConstant] returns the single node
      [IMASKrcpw (2^n - 1), p, 0];
    - high half, [p + n <= 31]: it returns the single node
      [IMASKrcpw 0, p, n];
    and in both cases the masked insert evaluates to the constant. *)
Theorem SelectConstant_IMASK_run p n :
  0 <= p -> 1 <= n -> p + n <= 32 ->
  (getFFS (ones_at n p) - 1 = p
   /\ getNumSetBits (ones_at n p) = n
   /\ getNumConsecutiveOnes (ones_at n p) = n)
  /\ (n <= 4 ->
      SelectConstant i64 (ones_at n p)
      = Selected (MachineNode IMASKrcpw i64
                    [TargetConstant i32 (2 ^ n - 1); TargetConstant i32 p;
                     TargetConstant i32 0])
      /\ eval_IMASK_node
           (MachineNode IMASKrcpw i64
              [TargetConstant i32 (2 ^ n - 1); TargetConstant i32 p;
               TargetConstant i32 0])
         = Some (ones_at n p))
  /\ (p + n <= 31 ->
      SelectConstant i64 (Z.shiftl (ones_at n p) 32)
      = Selected (MachineNode IMASKrcpw i64
                    [TargetConstant i32 0; TargetConstant i32 p;
                     TargetConstant i32 n])
      /\ eval_IMASK_node
           (MachineNode IMASKrcpw i64
              [TargetConstant i32 0; TargetConstant i32 p;
               TargetConstant i32 n])
         = Some (Z.shiftl (ones_at n p) 32)).
Proof.
  intros Hp Hn Hpn.
  split; [exact (contiguous_run_measured p n Hp Hn Hpn) |].
  split; intros Hb.
  - pose proof (forall_runs_sound _ low_run_selected_all p n
                  ltac:(lia) ltac:(lia)) as H.
    unfold low_run_selected in H.
    replace (n <=? 4) with true in H by (symmetry; apply Z.leb_le; lia).
    replace (p + n <=? 32) with true in H by (symmetry; apply Z.leb_le; lia).
    cbn [andb] in H. apply andb_true_iff in H. destruct H as [Hs He].
    split; [exact (is_IMASK_sound _ _ _ _ Hs) |].
    cbn [eval_IMASK_node]. f_equal. apply Z.eqb_eq. exact He.
  - pose proof (forall_runs_sound _ high_run_selected_all p n
                  ltac:(lia) ltac:(lia)) as H.
    unfold high_run_selected in H.
    replace (p + n <=? 31) with true in H by (symmetry; apply Z.leb_le; lia).
    apply andb_true_iff in H. destruct H as [Hs He].
    split; [exact (is_IMASK_sound _ _ _ _ Hs) |].
    cbn [eval_IMASK_node]. f_equal. apply Z.eqb_eq. exact He.
Qed.

Lemma SelectConstant_IMASK_run_witness :
  (SelectConstant i64 0x700
   = Selected (MachineNode IMASKrcpw i64
                 [TargetConstant i32 7; TargetConstant i32 8;
                  TargetConstant i32 0])
   /\ eval_IMASK_node
        (MachineNode IMASKrcpw i64
           [TargetConstant i32 7; TargetConstant i32 8;
            TargetConstant i32 0])
      = Some 0x700)
  /\ (SelectConstant i64 0x70000000000
      = Selected (MachineNode IMASKrcpw i64
                    [TargetConstant i32 0; TargetConstant i32 8;
                     TargetConstant i32 3])
      /\ eval_IMASK_node
           (MachineNode IMASKrcpw i64
              [TargetConstant i32 0; TargetConstant i32 8;
               TargetConstant i32 3])
         = Some 0x70000000000).
Proof.
  pose proof (SelectConstant_IMASK_run 8 3 ltac:(lia) ltac:(lia) ltac:(lia))
    as (_ & Hlow & Hhigh).
  split; [apply Hlow | apply Hhigh]; lia.
Defined.

(** ** The address matcher *)

Section MatcherFacts.

Variable MaskedValueIsZero : SDValue -> MVT -> Z -> bool.


Lemma MatchAddress_switch_ADD A B AM :
  MatchAddress_switch MaskedValueIsZero (ADD A B) AM =
  match match_in_order MaskedValueIsZero A B AM with
  | Some AM2 => Return false AM2
  | None =>
      match match_in_order MaskedValueIsZero B A AM with
      | Some AM2 => Return false AM2
      | None => Break AM
      end
  end.
Proof.
  set (MA := MatchAddress MaskedValueIsZero).
  assert (Hsecond :
            (let '(f1, AM3) := MA B AM in
             let '(f0, AM4) := if negb f1 then MA A AM3 else (true, AM3) in
             if negb f1 && negb f0 then Return false AM4 else Break AM)
            = match match_in_order MaskedValueIsZero B A AM with
              | Some AM2 => Return false AM2
              | None => Break AM
              end).
  { unfold match_in_order. fold MA.
    destruct (MA B AM) as [[] AM3]; cbn [negb andb]; [reflexivity |].
    destruct (MA A AM3) as [[] AM4]; reflexivity. }
  unfold match_in_order at 1. cbn [MatchAddress_switch].
  fold (MatchAddress MaskedValueIsZero A AM).
  fold (MatchAddress MaskedValueIsZero B AM). fold MA.
  destruct (MA A AM) as [[] AM1]; cbn [negb andb]; [exact Hsecond |].
  fold (MatchAddress MaskedValueIsZero B AM1). fold MA.
  destruct (MA B AM1) as [[] AM2]; cbn [negb andb];
    [exact Hsecond | reflexivity].
Qed.

Lemma MatchAddress_switch_OR X R AM :
  MatchAddress_switch MaskedValueIsZero (OR X R) AM =
  match R with
  | Constant VT Val =>
      match MatchAddress MaskedValueIsZero X AM with
      | (false, AM1) =>
          if negb (isSome (GV AM1)) && MaskedValueIsZero X VT Val
          then Return false (add_Disp AM1 (to_uint64 (getSExtValue VT Val)))
          else Break AM
      | (true, _) => Break AM
      end
  | _ => Break AM
  end.
Proof.
  cbn [MatchAddress_switch].
  destruct R; try reflexivity.
  fold (MatchAddress MaskedValueIsZero X AM).
  destruct (MatchAddress MaskedValueIsZero X AM) as [[] AM1]; reflexivity.
Qed.

Lemma MatchAddress_Constant VT Val AM :
  MatchAddress MaskedValueIsZero (Constant VT Val) AM
  = (false, add_Disp AM (to_uint64 (getSExtValue VT Val))).
Proof. reflexivity. Qed.

Lemma MatchAddress_Wrapper Op AM :
  MatchAddress MaskedValueIsZero (Wrapper Op) AM =
  match MatchWrapper (Wrapper Op) AM with
  | (false, AM1) => (false, AM1)
  | (true, AM1) => MatchAddressBase (Wrapper Op) AM1
  end.
Proof.
  unfold MatchAddress. cbn [MatchAddress_switch].
  destruct (MatchWrapper (Wrapper Op) AM) as [[] AM1]; reflexivity.
Qed.

Lemma MatchAddress_FrameIndex FI AM :
  MatchAddress MaskedValueIsZero (FrameIndex FI) AM =
  match BaseType AM, Base_Reg AM with
  | RegBase, None =>
      (false, set_Base_FrameIndex (set_BaseType AM FrameIndexBase) (Some FI))
  | _, _ => MatchAddressBase (FrameIndex FI) AM
  end.
Proof.
  unfold MatchAddress. cbn [MatchAddress_switch].
  destruct (BaseType AM), (Base_Reg AM); reflexivity.
Qed.

Lemma MatchAddress_ADD A B AM :
  MatchAddress MaskedValueIsZero (ADD A B) AM =
  match match_in_order MaskedValueIsZero A B AM with
  | Some AM2 => (false, AM2)
  | None =>
      match match_in_order MaskedValueIsZero B A AM with
      | Some AM2 => (false, AM2)
      | None => MatchAddressBase (ADD A B) AM
      end
  end.
Proof.
  unfold MatchAddress at 1. rewrite MatchAddress_switch_ADD.
  destruct (match_in_order MaskedValueIsZero A B AM); [reflexivity |].
  destruct (match_in_order MaskedValueIsZero B A AM); reflexivity.
Qed.

(** The [switch] either returns success or breaks with the mode it was
    entered with: failure is only ever reported by [MatchAddressBase]. *)
Lemma MatchAddress_switch_exit N AM :
  (exists AM', MatchAddress_switch MaskedValueIsZero N AM = Return false AM')
  \/ MatchAddress_switch MaskedValueIsZero N AM = Break AM.
Proof.
  destruct N; try (right; reflexivity).
  - left. eexists. reflexivity.
  - cbn [MatchAddress_switch].
    destruct (BaseType AM), (Base_Reg AM);
      first [right; reflexivity | left; eexists; reflexivity].
  - cbn [MatchAddress_switch]. unfold MatchWrapper.
    destruct (hasSymbolicDisplacement AM); [right; reflexivity |].
    left. destruct (getOperand (Wrapper N) 0) as [[] |];
      eexists; reflexivity.
  - rewrite MatchAddress_switch_ADD.
    destruct (match_in_order MaskedValueIsZero N1 N2 AM);
      [left; eexists; reflexivity |].
    destruct (match_in_order MaskedValueIsZero N2 N1 AM);
      first [right; reflexivity | left; eexists; reflexivity].
  - rewrite MatchAddress_switch_OR.
    destruct N2; try (right; reflexivity).
    destruct (MatchAddress MaskedValueIsZero N1 AM) as [[] AM1];
      [right; reflexivity |].
    destruct (negb (isSome (GV AM1)) && MaskedValueIsZero N1 VT Val);
      first [right; reflexivity | left; eexists; reflexivity].
Qed.

Lemma MatchAddressBase_failure N AM AM' :
  MatchAddressBase N AM = (true, AM') -> AM' = AM.
Proof.
  unfold MatchAddressBase.
  destruct (BaseType AM), (Base_Reg AM); congruence.
Qed.

End MatcherFacts.

(** C5. When [MatchAddress] reports failure, the addressing mode it hands
    back is the one it was given: nothing written during the attempt (base
    slot, displacement, symbol) survives, whichever of the [ADD] orderings
    or the speculative [OR] fold was tried. *)
Theorem MatchAddress_failure_restores MaskedValueIsZero N AM AM' :
  MatchAddress MaskedValueIsZero N AM = (true, AM') -> AM' = AM.
Proof.
  unfold MatchAddress.
  destruct (MatchAddress_switch_exit MaskedValueIsZero N AM) as [[AM1 ->] | ->].
  - discriminate.
  - apply MatchAddressBase_failure.
Qed.

Lemma MatchAddress_failure_restores_witness :
  MatchAddress MaskedValueIsZero_constants
    (ADD (Constant i32 8) (CopyFromReg 2)) AM_with_base
  = (true, AM_with_base)
  /\ AM_with_base = AM_with_base.
Proof.
  split; [reflexivity |].
  apply (MatchAddress_failure_restores MaskedValueIsZero_constants
           (ADD (Constant i32 8) (CopyFromReg 2))).
  reflexivity.
Defined.

(** *** What a matching attempt may change

    An induction principle for [MatchAddress]: a relation between the mode
    before and the mode after that is reflexive and transitive and holds
    for each elementary write of the matcher (displacement, global symbol,
    frame-index base, register base) holds for every call. *)

Section MatcherRelation.

Variable MaskedValueIsZero : SDValue -> MVT -> Z -> bool.
Variable R : TriCoreISelAddressMode -> TriCoreISelAddressMode -> Prop.

Hypothesis R_refl : forall A, R A A.
Hypothesis R_trans : forall A B C, R A B -> R B C -> R A C.
Hypothesis R_Disp : forall A v, R A (add_Disp A v).
Hypothesis R_GV :
  forall A g, hasSymbolicDisplacement A = false -> R A (set_GV A (Some g)).
Hypothesis R_FrameIndex :
  forall A FI, BaseType A = RegBase -> Base_Reg A = None ->
    R A (set_Base_FrameIndex (set_BaseType A FrameIndexBase) (Some FI)).
Hypothesis R_Reg :
  forall A N, BaseType A = RegBase -> Base_Reg A = None ->
    R A (set_Base_Reg (set_BaseType A RegBase) (Some N)).

Lemma MatchAddressBase_rel N A b A' :
  MatchAddressBase N A = (b, A') -> R A A'.
Proof.
  unfold MatchAddressBase.
  destruct (BaseType A) eqn:HB, (Base_Reg A) eqn:HR;
    intros [= <- <-]; auto.
Qed.

Lemma MatchWrapper_rel N A b A' :
  MatchWrapper N A = (b, A') -> R A A'.
Proof.
  unfold MatchWrapper.
  destruct (hasSymbolicDisplacement A) eqn:HS; [intros [= <- <-]; auto |].
  destruct (getOperand N 0) as [[] |]; intros [= <- <-]; auto.
  eapply R_trans; [apply R_GV; exact HS | apply R_Disp].
Qed.

Lemma MatchAddress_rel N :
  forall A b A', MatchAddress MaskedValueIsZero N A = (b, A') -> R A A'.
Proof.
  induction N as [VT Val | FI | Op IHOp | | | | | | A0 IHA B0 IHB
                 | X IHX C IHC | |];
    intros A b A' H;
    try (apply (MatchAddressBase_rel _ _ _ _ H)).
  - rewrite MatchAddress_Constant in H. injection H as <- <-. auto.
  - rewrite MatchAddress_FrameIndex in H.
    destruct (BaseType A) eqn:HB, (Base_Reg A) eqn:HR;
      try (apply (MatchAddressBase_rel _ _ _ _ H)).
    injection H as <- <-. auto.
  - rewrite MatchAddress_Wrapper in H.
    destruct (MatchWrapper (Wrapper Op) A) as [[] A1] eqn:HW.
    + eapply R_trans; [exact (MatchWrapper_rel _ _ _ _ HW) |].
      exact (MatchAddressBase_rel _ _ _ _ H).
    + injection H as <- <-. exact (MatchWrapper_rel _ _ _ _ HW).
  - assert (Horder : forall P Q,
               (forall A b A',
                   MatchAddress MaskedValueIsZero P A = (b, A') -> R A A') ->
               (forall A b A',
                   MatchAddress MaskedValueIsZero Q A = (b, A') -> R A A') ->
               forall A2, match_in_order MaskedValueIsZero P Q A = Some A2 ->
                          R A A2).
    { intros P Q HP HQ A2. unfold match_in_order.
      destruct (MatchAddress MaskedValueIsZero P A) as [[] A1] eqn:H1;
        [discriminate |].
      destruct (MatchAddress MaskedValueIsZero Q A1) as [[] A3] eqn:H2;
        [discriminate |].
      intros [= <-]. eauto. }
    rewrite MatchAddress_ADD in H.
    destruct (match_in_order MaskedValueIsZero A0 B0 A) eqn:H1.
    { injection H as <- <-. eauto. }
    destruct (match_in_order MaskedValueIsZero B0 A0 A) eqn:H2.
    { injection H as <- <-. eauto. }
    exact (MatchAddressBase_rel _ _ _ _ H).
  - unfold MatchAddress in H. rewrite MatchAddress_switch_OR in H.
    destruct C; try (apply (MatchAddressBase_rel _ _ _ _ H)).
    destruct (MatchAddress MaskedValueIsZero X A) as [[] A1] eqn:H1;
      try (apply (MatchAddressBase_rel _ _ _ _ H)).
    destruct (negb (isSome (GV A1)) && MaskedValueIsZero X VT Val);
      try (apply (MatchAddressBase_rel _ _ _ _ H)).
    injection H as <- <-. eauto.
Qed.

End MatcherRelation.

Lemma MatchAddress_unwritten_fields MaskedValueIsZero N A b A' :
  MatchAddress MaskedValueIsZero N A = (b, A') -> same_unwritten_fields A A'.
Proof.
  apply (MatchAddress_rel MaskedValueIsZero same_unwritten_fields);
    unfold same_unwritten_fields; simpl; intros; intuition congruence.
Qed.

Lemma MatchAddress_keeps_symbol MaskedValueIsZero N A b A' :
  MatchAddress MaskedValueIsZero N A = (b, A') -> keeps_symbol A A'.
Proof.
  apply (MatchAddress_rel MaskedValueIsZero keeps_symbol);
    unfold keeps_symbol; simpl; intros; auto.
  unfold hasSymbolicDisplacement in H. rewrite H0 in H. discriminate.
Qed.

Lemma Reachable_unwritten_fields MaskedValueIsZero A :
  Reachable MaskedValueIsZero A ->
  same_unwritten_fields TriCoreISelAddressMode_new A.
Proof.
  assert (Htrans : forall X Y Z,
             same_unwritten_fields X Y -> same_unwritten_fields Y Z ->
             same_unwritten_fields X Z)
    by (unfold same_unwritten_fields; intros; intuition congruence).
  induction 1 as [| N A b A' _ IH H | N A b A' _ IH H | N A b A' _ IH H].
  - unfold same_unwritten_fields. auto.
  - eapply Htrans; [exact IH |].
    exact (MatchAddress_unwritten_fields _ _ _ _ _ H).
  - eapply Htrans; [exact IH |].
    apply (MatchWrapper_rel same_unwritten_fields) with (N := N) (b := b);
      try exact H; unfold same_unwritten_fields; simpl; intros;
      intuition congruence.
  - eapply Htrans; [exact IH |].
    apply (MatchAddressBase_rel same_unwritten_fields) with (N := N) (b := b);
      try exact H; unfold same_unwritten_fields; simpl; intros;
      intuition congruence.
Qed.

Lemma Reachable_hasSymbolicDisplacement MaskedValueIsZero A :
  Reachable MaskedValueIsZero A ->
  hasSymbolicDisplacement A = isSome (GV A).
Proof.
  intros H. apply Reachable_unwritten_fields in H.
  destruct H as (HCP & HES & HJT & _). unfold hasSymbolicDisplacement.
  rewrite HCP, HES, HJT. simpl. rewrite !orb_false_r. reflexivity.
Qed.

Lemma add_Disp_to_uint64 A v : add_Disp A (to_uint64 v) = add_Disp A v.
Proof. unfold add_Disp. rewrite to_int64_add_uint64. reflexivity. Qed.

(** *** Wrappers *)

Lemma AM_with_symbol_Reachable :
  Reachable MaskedValueIsZero_constants AM_with_symbol.
Proof.
  apply (Reachable_MatchAddress _ (Wrapper (GlobalAddress "g"%string 0))
           TriCoreISelAddressMode_new false).
  - constructor.
  - reflexivity.
Qed.

(** A wrapper around an external symbol, met by a mode that already holds
    a global: [MatchWrapper] reports "no match". *)
Lemma MatchWrapper_non_global_may_fail :
  Reachable MaskedValueIsZero_constants AM_with_symbol
  /\ hasSymbolicDisplacement AM_with_symbol = true
  /\ MatchWrapper (Wrapper (ExternalSymbol "f"%string)) AM_with_symbol
     = (true, AM_with_symbol)
  /\ MatchWrapper (Wrapper (ExternalSymbol "f"%string)) AM_with_symbol
     <> (false, AM_with_symbol).
Proof.
  split; [exact AM_with_symbol_Reachable |].
  repeat split. discriminate.
Qed.

(** C9 (amended). For a wrapper whose operand is not a global address:
    when the mode carries no symbolic reference, [MatchWrapper] (and
    [MatchAddress] on the wrapper) reports success and hands back the mode
    unchanged, so the symbol leaves no trace; when the mode already
    carries one, [MatchWrapper] reports "no match", again without a
    change.  No matcher function writes [CP], [ES], [JT], [BlockAddr] (or
    [Align]), so in every reachable mode they have their initial values and
    [hasSymbolicDisplacement] says whether [GV] is set. *)
Theorem MatchWrapper_non_global MaskedValueIsZero Op AM :
  (forall G Offset, Op <> GlobalAddress G Offset) ->
  (hasSymbolicDisplacement AM = false ->
   MatchWrapper (Wrapper Op) AM = (false, AM)
   /\ MatchAddress MaskedValueIsZero (Wrapper Op) AM = (false, AM))
  /\ (hasSymbolicDisplacement AM = true ->
      MatchWrapper (Wrapper Op) AM = (true, AM))
  /\ (forall N b AM',
        MatchAddress MaskedValueIsZero N AM = (b, AM')
        \/ MatchWrapper N AM = (b, AM') \/ MatchAddressBase N AM = (b, AM') ->
        same_unwritten_fields AM AM')
  /\ (Reachable MaskedValueIsZero AM ->
      CP AM = None /\ ES AM = None /\ JT AM = -1 /\ BlockAddr AM = None
      /\ hasSymbolicDisplacement AM = isSome (GV AM)).
Proof.
  intros HOp.
  assert (HW : hasSymbolicDisplacement AM = false ->
               MatchWrapper (Wrapper Op) AM = (false, AM)).
  { intros HS. unfold MatchWrapper. rewrite HS. simpl.
    destruct Op; try reflexivity. exfalso. eapply HOp. reflexivity. }
  split; [| split; [| split]].
  - intros HS. split; [auto |].
    rewrite MatchAddress_Wrapper, HW by assumption. reflexivity.
  - intros HS. unfold MatchWrapper. rewrite HS. reflexivity.
  - intros N b AM' [H | [H | H]].
    + exact (MatchAddress_unwritten_fields _ _ _ _ _ H).
    + apply (MatchWrapper_rel same_unwritten_fields) with (N := N) (b := b);
        try exact H; unfold same_unwritten_fields; simpl; intros;
        intuition congruence.
    + apply (MatchAddressBase_rel same_unwritten_fields) with (N := N) (b := b);
        try exact H; unfold same_unwritten_fields; simpl; intros;
        intuition congruence.
  - intros H.
    pose proof (Reachable_hasSymbolicDisplacement _ _ H) as HS.
    apply Reachable_unwritten_fields in H.
    destruct H as (HCP & HES & HJT & HBA & _). auto.
Qed.

Lemma MatchWrapper_non_global_witness :
  MatchWrapper (Wrapper (ExternalSymbol "f"%string)) TriCoreISelAddressMode_new
  = (false, TriCoreISelAddressMode_new)
  /\ MatchAddress MaskedValueIsZero_constants
       (Wrapper (ExternalSymbol "f"%string)) TriCoreISelAddressMode_new
     = (false, TriCoreISelAddressMode_new).
Proof.
  apply (MatchWrapper_non_global MaskedValueIsZero_constants
           (ExternalSymbol "f"%string) TriCoreISelAddressMode_new).
  - discriminate.
  - reflexivity.
Defined.

(** A second wrapper, met by a mode that already holds a global and has a
    free base register: [MatchAddress] succeeds, the wrapper node becomes
    the base register. *)
Lemma MatchAddress_second_wrapper_succeeds :
  Reachable MaskedValueIsZero_constants AM_with_symbol
  /\ hasSymbolicDisplacement AM_with_symbol = true
  /\ MatchAddress MaskedValueIsZero_constants
       (Wrapper (GlobalAddress "h"%string 4)) AM_with_symbol
     = (false,
        set_Base_Reg AM_with_symbol
          (Some (Wrapper (GlobalAddress "h"%string 4))))
  /\ fst (MatchAddress MaskedValueIsZero_constants
            (Wrapper (GlobalAddress "h"%string 4)) AM_with_symbol) <> true.
Proof.
  split; [exact AM_with_symbol_Reachable |].
  repeat split. discriminate.
Qed.

(** C6 (amended). When the mode already carries a symbolic reference,
    [MatchWrapper] reports "no match" for a wrapper and records nothing;
    [MatchAddress] then treats the wrapper node as an ordinary base
    candidate: it fails, leaving the mode as it was, when the base slot is
    taken, and otherwise succeeds with the wrapper node as base register.
    Either way no second symbol is admitted: a global held by the mode is
    still the one held after any matching attempt. *)
Theorem MatchAddress_Wrapper_with_symbol MaskedValueIsZero Op AM :
  hasSymbolicDisplacement AM = true ->
  MatchWrapper (Wrapper Op) AM = (true, AM)
  /\ MatchAddress MaskedValueIsZero (Wrapper Op) AM
     = MatchAddressBase (Wrapper Op) AM
  /\ (BaseType AM = RegBase /\ Base_Reg AM = None ->
      MatchAddress MaskedValueIsZero (Wrapper Op) AM
      = (false, set_Base_Reg (set_BaseType AM RegBase) (Some (Wrapper Op))))
  /\ (~ (BaseType AM = RegBase /\ Base_Reg AM = None) ->
      MatchAddress MaskedValueIsZero (Wrapper Op) AM = (true, AM))
  /\ (forall N b AM' g,
        MatchAddress MaskedValueIsZero N AM = (b, AM') ->
        GV AM = Some g -> GV AM' = Some g).
Proof.
  intros HS.
  assert (HW : MatchWrapper (Wrapper Op) AM = (true, AM))
    by (unfold MatchWrapper; rewrite HS; reflexivity).
  assert (HA : MatchAddress MaskedValueIsZero (Wrapper Op) AM
               = MatchAddressBase (Wrapper Op) AM)
    by (rewrite MatchAddress_Wrapper, HW; reflexivity).
  split; [assumption |]. split; [assumption |].
  split; [| split].
  - intros [HB HR]. rewrite HA. unfold MatchAddressBase.
    rewrite HB, HR. reflexivity.
  - intros Hocc. rewrite HA. unfold MatchAddressBase.
    destruct (BaseType AM), (Base_Reg AM); try reflexivity.
    exfalso. apply Hocc. split; reflexivity.
  - intros N b AM' g H.
    exact (MatchAddress_keeps_symbol _ _ _ _ _ H g).
Qed.

Lemma MatchAddress_Wrapper_with_symbol_witness :
  MatchWrapper (Wrapper (GlobalAddress "h"%string 4)) AM_with_symbol
  = (true, AM_with_symbol)
  /\ MatchAddress MaskedValueIsZero_constants
       (Wrapper (GlobalAddress "h"%string 4)) AM_with_symbol
     = MatchAddressBase (Wrapper (GlobalAddress "h"%string 4)) AM_with_symbol.
Proof.
  pose proof (MatchAddress_Wrapper_with_symbol MaskedValueIsZero_constants
                (GlobalAddress "h"%string 4) AM_with_symbol eq_refl)
    as (H1 & H2 & _).
  split; assumption.
Defined.

(** *** Bitwise or as addition *)



(** *** Chains of additions *)

Section AddChains.

Variable MaskedValueIsZero : SDValue -> MVT -> Z -> bool.

Lemma add_Disp_add_Disp A x y :
  add_Disp (add_Disp A x) y = add_Disp A (x + y).
Proof.
  unfold add_Disp, set_Disp. cbn [Disp BaseType Base_Reg Base_FrameIndex GV
    CP BlockAddr ES JT Align].
  rewrite to_int64_add_l, Z.add_assoc. reflexivity.
Qed.

Lemma add_Disp_claim_base L A x :
  add_Disp (claim_base L A) x = claim_base L (add_Disp A x).
Proof. destruct L; reflexivity. Qed.

(** A chain of constants only: every constant goes to the displacement,
    whatever the mode. *)
Lemma MatchAddress_constants N :
  forall AM, nonconst_leaves N = [] ->
    MatchAddress MaskedValueIsZero N AM = (false, add_Disp AM (const_sum N)).
Proof.
  induction N as [VT Val | | | | | | | | A IHA B IHB | | |];
    intros AM H; try discriminate H.
  - rewrite MatchAddress_Constant, add_Disp_to_uint64. reflexivity.
  - cbn [nonconst_leaves] in H. apply app_eq_nil in H. destruct H as [HA HB].
    rewrite MatchAddress_ADD. unfold match_in_order.
    rewrite (IHA _ HA), (IHB _ HB), add_Disp_add_Disp. reflexivity.
Qed.

Lemma MatchAddress_base_leaf L AM :
  isBaseLeaf L = true -> BaseType AM = RegBase -> Base_Reg AM = None ->
  MatchAddress MaskedValueIsZero L AM = (false, claim_base L AM).
Proof.
  intros HL HB HR. destruct L; try discriminate HL;
    try (unfold MatchAddress, MatchAddressBase;
         cbn [MatchAddress_switch claim_base]; rewrite HB, HR; reflexivity).
Qed.

(** A chain with one leaf that is not a constant, met with a free base
    slot: the leaf takes the slot and the constants on both sides of it
    go to the displacement. *)
Lemma add_Disp_0 A :
  INT64_MIN <= Disp A <= INT64_MAX -> add_Disp A 0 = A.
Proof.
  intros H. destruct A. unfold add_Disp, set_Disp. simpl in *.
  rewrite Z.add_0_r, to_int64_small by assumption. reflexivity.
Qed.

Lemma add_Disp_range A x : INT64_MIN <= Disp (add_Disp A x) <= INT64_MAX.
Proof. apply to_int64_range. Qed.

Lemma MatchAddress_chain N :
  forall L AM,
    nonconst_leaves N = [L] -> isBaseLeaf L = true ->
    BaseType AM = RegBase -> Base_Reg AM = None ->
    INT64_MIN <= Disp AM <= INT64_MAX ->
    MatchAddress MaskedValueIsZero N AM
    = (false, claim_base L (add_Disp AM (const_sum N))).
Proof.
  induction N as [VT Val | FI | Op _ | | | | | | A IHA B IHB | X _ C _ | |];
    intros L AM HN HL HB HR HD; cbn [nonconst_leaves] in HN.
  9: {
    cbn [const_sum].
    rewrite MatchAddress_ADD. unfold match_in_order.
    apply app_eq_unit in HN. destruct HN as [[HA HBl] | [HA HBl]].
    - rewrite (MatchAddress_constants A _ HA).
      rewrite (IHB L (add_Disp AM (const_sum A)) HBl HL HB HR
                 (add_Disp_range _ _)).
      rewrite add_Disp_add_Disp. reflexivity.
    - rewrite (IHA L AM HA HL HB HR HD).
      rewrite (MatchAddress_constants B _ HBl).
      rewrite add_Disp_claim_base, add_Disp_add_Disp. reflexivity. }
  1: discriminate HN.
  all: injection HN as <-; try discriminate HL.
  all: rewrite MatchAddress_base_leaf by assumption.
  all: cbn [const_sum]; rewrite add_Disp_0 by assumption; reflexivity.
Qed.

End AddChains.

(** The sign-extended value of a constant of at most 32 bits is a 32-bit
    signed number, so a tree of such constants sums to at most [2^31] per
    leaf in absolute value. *)
Lemma count_constants_nonneg N : 0 <= count_constants N.
Proof.
  induction N as [VT Val | | | | | | | | A IHA B IHB | | |];
    cbn [count_constants]; lia.
Qed.

Lemma getSExtValue_pointer VT Val :
  (getSizeInBits VT <=? 32) = true ->
  - 2 ^ 31 <= getSExtValue VT Val <= 2 ^ 31 - 1.
Proof.
  unfold getSExtValue.
  destruct VT; cbn [getSizeInBits]; intros H; try discriminate H; int_arith.
Qed.

Lemma const_sum_pointer_bound N :
  pointer_constants N = true ->
  - 2 ^ 31 * count_constants N <= const_sum N
  /\ const_sum N <= (2 ^ 31 - 1) * count_constants N.
Proof.
  induction N as [VT Val | | | | | | | | A IHA B IHB | | |];
    cbn [pointer_constants count_constants const_sum]; intros H;
    try lia.
  - pose proof (getSExtValue_pointer VT Val H). lia.
  - apply andb_true_iff in H. destruct H as [HA HB].
    specialize (IHA HA). specialize (IHB HB). lia.
Qed.

Lemma const_sum_pointer_int64 N :
  pointer_constants N = true -> count_constants N <= 2 ^ 32 ->
  INT64_MIN <= const_sum N <= INT64_MAX.
Proof.
  intros HP HC. unfold INT64_MIN, INT64_MAX.
  pose proof (const_sum_pointer_bound N HP) as [Hlo Hhi].
  pose proof (count_constants_nonneg N) as H0.
  change (2 ^ 63) with (2 ^ 31 * 2 ^ 32).
  change (2 ^ 32) with 4294967296 in *.
  change (2 ^ 31) with 2147483648 in *.
  lia.
Qed.

(** C1. Take an address built from [ADD] nodes whose leaves are integer
    constants and exactly one other node [L], a frame index or a
    register-valued node, in any grouping; the constants have the width of
    an address or less (a TriCore pointer is an [i32] and the operands of
    an [ADD] have its type) and there are at most [2^32] of them.
    [MatchAddress], started on a fresh mode, succeeds; [L] is the only base
    recorded (frame-index base for a frame index, register base
    otherwise); no symbol is recorded; and the displacement is the exact
    sum of the sign-extended constants: the [int64_t] accumulator cannot
    wrap on such a sum. *)
Theorem MatchAddress_add_chain MaskedValueIsZero N L :
  nonconst_leaves N = [L] -> isBaseLeaf L = true ->
  pointer_constants N = true -> count_constants N <= 2 ^ 32 ->
  exists AM',
    MatchAddress MaskedValueIsZero N TriCoreISelAddressMode_new = (false, AM')
    /\ AM' = claim_base L (set_Disp TriCoreISelAddressMode_new (const_sum N))
    /\ (forall FI, L = FrameIndex FI ->
          BaseType AM' = FrameIndexBase /\ Base_FrameIndex AM' = Some FI
          /\ Base_Reg AM' = None)
    /\ (isRegisterValued L = true ->
          BaseType AM' = RegBase /\ Base_Reg AM' = Some L)
    /\ hasSymbolicDisplacement AM' = false
    /\ Disp AM' = const_sum N.
Proof.
  intros HN HL HP HC.
  pose proof (MatchAddress_chain MaskedValueIsZero N L
                TriCoreISelAddressMode_new HN HL eq_refl eq_refl) as H.
  rewrite H by (unfold INT64_MIN, INT64_MAX; simpl; lia).
  assert (HA : add_Disp TriCoreISelAddressMode_new (const_sum N)
               = set_Disp TriCoreISelAddressMode_new (const_sum N)).
  { unfold add_Disp. cbn [Disp TriCoreISelAddressMode_new].
    rewrite Z.add_0_l, to_int64_small
      by (apply const_sum_pointer_int64; assumption).
    reflexivity. }
  rewrite HA.
  eexists. split; [reflexivity |].
  split; [reflexivity |].
  split; [intros FI ->; repeat split |].
  split; [intros HRV; destruct L; try discriminate HRV; repeat split |].
  split; destruct L; reflexivity.
Qed.

Lemma MatchAddress_add_chain_witness :
  exists AM',
    MatchAddress MaskedValueIsZero_constants
      (ADD (Constant i32 4) (ADD (ADD (FrameIndex 2) (Constant i32 (-12)))
                                 (Constant i32 16)))
      TriCoreISelAddressMode_new
    = (false, AM')
    /\ BaseType AM' = FrameIndexBase /\ Base_FrameIndex AM' = Some 2
    /\ Disp AM' = 8.
Proof.
  destruct (MatchAddress_add_chain MaskedValueIsZero_constants
              (ADD (Constant i32 4)
                   (ADD (ADD (FrameIndex 2) (Constant i32 (-12)))
                        (Constant i32 16)))
              (FrameIndex 2) eq_refl eq_refl eq_refl)
    as (AM' & Hm & _ & Hfi & _ & _ & Hd).
  - vm_compute. discriminate.
  - exists AM'. split; [exact Hm |].
    destruct (Hfi 2 eq_refl) as (Hb & Hi & _).
    split; [exact Hb |]. split; [exact Hi |].
    exact Hd.
Defined.

(** * Further properties of the matcher *)

Section MatcherBase.

Variable MaskedValueIsZero : SDValue -> MVT -> Z -> bool.

Lemma MatchAddressBase_free N AM :
  base_free AM = true ->
  MatchAddressBase N AM
  = (false, set_Base_Reg (set_BaseType AM RegBase) (Some N)).
Proof.
  unfold base_free, MatchAddressBase.
  destruct (BaseType AM), (Base_Reg AM); intros H;
    try discriminate H; reflexivity.
Qed.

Lemma MatchAddressBase_occupied N AM :
  base_free AM = false -> MatchAddressBase N AM = (true, AM).
Proof.
  unfold base_free, MatchAddressBase.
  destruct (BaseType AM), (Base_Reg AM); intros H;
    try discriminate H; reflexivity.
Qed.

Lemma same_base_free A B : same_base A B -> base_free B = base_free A.
Proof. intros (H1 & H2 & _). unfold base_free. rewrite H1, H2. reflexivity. Qed.

Lemma MatchAddress_failure_means_occupied N AM :
  fst (MatchAddress MaskedValueIsZero N AM) = true -> base_free AM = false.
Proof.
  unfold MatchAddress.
  destruct (MatchAddress_switch_exit MaskedValueIsZero N AM) as [[AM1 ->] | ->].
  - discriminate.
  - destruct (base_free AM) eqn:HF; [| reflexivity].
    rewrite MatchAddressBase_free by assumption. discriminate.
Qed.

(** X1. With a free base slot [MatchAddress] cannot fail, whatever the
    node: every failure comes from [MatchAddressBase] finding the slot
    taken on the mode restored to its entry value. *)
Theorem MatchAddress_fails_only_when_occupied N AM :
  fst (MatchAddress MaskedValueIsZero N AM) = true -> base_free AM = false.
Proof. exact (MatchAddress_failure_means_occupied N AM). Qed.


Lemma MatchAddress_free_succeeds N AM :
  base_free AM = true -> fst (MatchAddress MaskedValueIsZero N AM) = false.
Proof.
  intros HF. destruct (fst (MatchAddress MaskedValueIsZero N AM)) eqn:H;
    [| reflexivity].
  apply MatchAddress_failure_means_occupied in H. congruence.
Qed.

Lemma MatchAddress_occupied_base_kept N AM b AM' :
  base_free AM = false ->
  MatchAddress MaskedValueIsZero N AM = (b, AM') ->
  same_base AM AM' /\ base_free AM' = false.
Proof.
  intros HF H.
  assert (HR : base_free AM = false -> same_base AM AM').
  { apply (MatchAddress_rel MaskedValueIsZero
             (fun A B => base_free A = false -> same_base A B))
      with (N := N) (b := b);
      try exact H; unfold same_base.
    - auto.
    - intros A B C HAB HBC HA. specialize (HAB HA).
      pose proof (same_base_free _ _ HAB) as HB. rewrite HA in HB.
      specialize (HBC HB). unfold same_base in *. intuition congruence.
    - intros; repeat split.
    - intros; repeat split.
    - intros A FI HB HRg HA. unfold base_free in HA.
      rewrite HB, HRg in HA. discriminate.
    - intros A M HB HRg HA. unfold base_free in HA.
      rewrite HB, HRg in HA. discriminate. }
  specialize (HR HF). split; [exact HR |].
  rewrite (same_base_free _ _ HR). exact HF.
Qed.

(** X2. A base that is taken is never replaced: if the slot is occupied
    when [MatchAddress] is entered, the base type, the base register and
    the frame index are the same when it returns, with success or not. *)
Theorem MatchAddress_keeps_occupied_base N AM b AM' :
  base_free AM = false ->
  MatchAddress MaskedValueIsZero N AM = (b, AM') ->
  same_base AM AM' /\ base_free AM' = false.
Proof. exact (MatchAddress_occupied_base_kept N AM b AM'). Qed.


Lemma Reachable_union_discipline AM :
  Reachable MaskedValueIsZero AM -> base_is_union AM.
Proof.
  set (R := fun A B => base_is_union A -> base_is_union B).
  assert (R_refl : forall A, R A A) by (unfold R; auto).
  assert (R_trans : forall A B C, R A B -> R B C -> R A C)
    by (unfold R; auto).
  assert (R_Disp : forall A v, R A (add_Disp A v)) by (unfold R; auto).
  assert (R_GV : forall A g,
             hasSymbolicDisplacement A = false -> R A (set_GV A (Some g)))
    by (unfold R; auto).
  assert (R_FI : forall A FI, BaseType A = RegBase -> Base_Reg A = None ->
             R A (set_Base_FrameIndex (set_BaseType A FrameIndexBase)
                    (Some FI))).
  { intros A FI HB HRg _. unfold base_is_union. simpl. auto. }
  assert (R_Reg : forall A M, BaseType A = RegBase -> Base_Reg A = None ->
             R A (set_Base_Reg (set_BaseType A RegBase) (Some M))).
  { intros A M HB HRg HA. unfold base_is_union in *. simpl.
    rewrite HB in HA. exact HA. }
  induction 1 as [| N A b A' _ IH H | N A b A' _ IH H | N A b A' _ IH H].
  - reflexivity.
  - exact (MatchAddress_rel MaskedValueIsZero R R_refl R_trans R_Disp R_GV
             R_FI R_Reg N A b A' H IH).
  - exact (MatchWrapper_rel R R_refl R_trans R_Disp R_GV N A b A' H IH).
  - exact (MatchAddressBase_rel R R_refl R_Reg N A b A' H IH).
Qed.

(** X3. In every mode that occurs in a run the struct [Base] is used as
    the union its comment says it is: a frame-index base has its index
    written and no register node, a register base has no index written. *)
Theorem Reachable_base_is_union AM :
  Reachable MaskedValueIsZero AM -> base_is_union AM.
Proof. exact (Reachable_union_discipline AM). Qed.

End MatcherBase.

Lemma MatchAddress_fails_only_when_occupied_witness :
  fst (MatchAddress MaskedValueIsZero_constants
         (ADD (Constant i32 8) (CopyFromReg 2)) AM_with_base) = true
  /\ base_free AM_with_base = false.
Proof.
  split; [reflexivity |].
  apply (MatchAddress_fails_only_when_occupied MaskedValueIsZero_constants
           (ADD (Constant i32 8) (CopyFromReg 2))).
  reflexivity.
Defined.

Lemma MatchAddress_keeps_occupied_base_witness :
  same_base AM_with_base (set_Disp AM_with_base 8)
  /\ base_free (set_Disp AM_with_base 8) = false.
Proof.
  apply (MatchAddress_keeps_occupied_base MaskedValueIsZero_constants
           (Constant i32 8) AM_with_base false).
  - reflexivity.
  - reflexivity.
Defined.

Lemma Reachable_base_is_union_witness :
  base_is_union
    (set_Base_FrameIndex
       (set_BaseType TriCoreISelAddressMode_new FrameIndexBase) (Some 3)).
Proof.
  apply (Reachable_base_is_union MaskedValueIsZero_constants).
  apply (Reachable_MatchAddress _ (FrameIndex 3)
           TriCoreISelAddressMode_new false).
  - constructor.
  - reflexivity.
Defined.

Section MatcherAdd.

Variable MaskedValueIsZero : SDValue -> MVT -> Z -> bool.

(** X4. [ADD] is matched as a commutative operator: whether [MatchAddress]
    succeeds on [ADD A B] does not depend on the order of the operands
    (the modes produced may differ). *)
Theorem MatchAddress_ADD_comm A B AM :
  fst (MatchAddress MaskedValueIsZero (ADD A B) AM)
  = fst (MatchAddress MaskedValueIsZero (ADD B A) AM).
Proof.
  rewrite !MatchAddress_ADD.
  destruct (match_in_order MaskedValueIsZero A B AM),
    (match_in_order MaskedValueIsZero B A AM); try reflexivity.
  unfold MatchAddressBase.
  destruct (BaseType AM), (Base_Reg AM); reflexivity.
Qed.

Lemma nonconst_leaves_base_leaf L :
  isBaseLeaf L = true -> nonconst_leaves L = [L].
Proof. destruct L; intros H; try discriminate H; reflexivity. Qed.

(** A tree that needs a base cannot be matched into a mode whose base is
    taken. *)
Lemma MatchAddress_occupied_fails N :
  forall AM,
    base_free AM = false -> all_base_leaves N = true ->
    nonconst_leaves N <> [] ->
    MatchAddress MaskedValueIsZero N AM = (true, AM).
Proof.
  unfold all_base_leaves.
  induction N as [VT Val | FI | Op _ | | | | | | A IHA B IHB | X _ C _ | |];
    intros AM HF HL HN; cbn [nonconst_leaves] in HL, HN;
    try (exfalso; apply HN; reflexivity);
    try discriminate HL;
    try (unfold MatchAddress; cbn [MatchAddress_switch];
         apply MatchAddressBase_occupied; exact HF).
  - rewrite MatchAddress_FrameIndex.
    unfold base_free in HF.
    destruct (BaseType AM) eqn:HB, (Base_Reg AM) eqn:HR;
      try discriminate HF; apply MatchAddressBase_occupied;
      unfold base_free; rewrite ?HB, ?HR; reflexivity.
  - rewrite forallb_app in HL. apply andb_true_iff in HL.
    destruct HL as [HLA HLB].
    assert (Horder : forall P Q,
               (forall AM, base_free AM = false ->
                           forallb isBaseLeaf (nonconst_leaves P) = true ->
                           nonconst_leaves P <> [] ->
                           MatchAddress MaskedValueIsZero P AM = (true, AM)) ->
               forallb isBaseLeaf (nonconst_leaves P) = true ->
               nonconst_leaves P <> [] ->
               match_in_order MaskedValueIsZero P Q AM = None
               /\ match_in_order MaskedValueIsZero Q P AM = None).
    { intros P Q IHP HLP HNP. unfold match_in_order.
      rewrite (IHP AM HF HLP HNP). split; [reflexivity |].
      destruct (MatchAddress MaskedValueIsZero Q AM) as [[] AM1] eqn:HQ;
        [reflexivity |].
      destruct (MatchAddress_occupied_base_kept _ _ _ _ _ HF HQ) as [_ HF1].
      rewrite (IHP AM1 HF1 HLP HNP). reflexivity. }
    assert (HAB : nonconst_leaves A <> [] \/ nonconst_leaves B <> []).
    { destruct (nonconst_leaves A); [right | left; discriminate].
      exact HN. }
    rewrite MatchAddress_ADD.
    destruct HAB as [HNA | HNB].
    + destruct (Horder A B IHA HLA HNA) as [H1 H2].
      rewrite H1, H2. apply MatchAddressBase_occupied. exact HF.
    + destruct (Horder B A IHB HLB HNB) as [H1 H2].
      rewrite H2, H1. apply MatchAddressBase_occupied. exact HF.
Qed.

Lemma MatchAddressBase_takes_base N AM AM' :
  MatchAddressBase N AM = (false, AM') -> base_free AM' = false.
Proof.
  unfold MatchAddressBase.
  destruct (BaseType AM), (Base_Reg AM); intros [= <-]; reflexivity.
Qed.

(** After a successful match of a tree that needs a base, the base is
    taken. *)
Lemma MatchAddress_takes_base N :
  forall AM AM',
    all_base_leaves N = true -> nonconst_leaves N <> [] ->
    MatchAddress MaskedValueIsZero N AM = (false, AM') ->
    base_free AM' = false.
Proof.
  unfold all_base_leaves.
  induction N as [VT Val | FI | Op _ | | | | | | A IHA B IHB | X _ C _ | |];
    intros AM AM' HL HN H; cbn [nonconst_leaves] in HL, HN;
    try (exfalso; apply HN; reflexivity);
    try discriminate HL;
    try (exact (MatchAddressBase_takes_base _ _ _ H)).
  - rewrite MatchAddress_FrameIndex in H.
    destruct (BaseType AM), (Base_Reg AM);
      try (exact (MatchAddressBase_takes_base _ _ _ H)).
    injection H as <-. reflexivity.
  - rewrite forallb_app in HL. apply andb_true_iff in HL.
    destruct HL as [HLA HLB].
    assert (HAB : nonconst_leaves A <> [] \/ nonconst_leaves B <> []).
    { destruct (nonconst_leaves A); [right | left; discriminate].
      exact HN. }
    assert (Horder : forall P Q A2,
               (nonconst_leaves P <> [] ->
                forall AM AM',
                  MatchAddress MaskedValueIsZero P AM = (false, AM') ->
                  base_free AM' = false) ->
               (nonconst_leaves Q <> [] ->
                forall AM AM',
                  MatchAddress MaskedValueIsZero Q AM = (false, AM') ->
                  base_free AM' = false) ->
               (nonconst_leaves P <> [] \/ nonconst_leaves Q <> []) ->
               match_in_order MaskedValueIsZero P Q AM = Some A2 ->
               base_free A2 = false).
    { intros P Q A2 HP HQ HPQ. unfold match_in_order.
      destruct (MatchAddress MaskedValueIsZero P AM) as [[] A1] eqn:H1;
        [discriminate |].
      destruct (MatchAddress MaskedValueIsZero Q A1) as [[] A3] eqn:H2;
        [discriminate |].
      intros [= <-]. destruct HPQ as [HNP | HNQ].
      - pose proof (HP HNP _ _ H1) as HF1.
        exact (proj2 (MatchAddress_occupied_base_kept _ _ _ _ _ HF1 H2)).
      - exact (HQ HNQ _ _ H2). }
    assert (HA : nonconst_leaves A <> [] ->
                 forall AM AM',
                   MatchAddress MaskedValueIsZero A AM = (false, AM') ->
                   base_free AM' = false) by eauto.
    assert (HB : nonconst_leaves B <> [] ->
                 forall AM AM',
                   MatchAddress MaskedValueIsZero B AM = (false, AM') ->
                   base_free AM' = false) by eauto.
    rewrite MatchAddress_ADD in H.
    destruct (match_in_order MaskedValueIsZero A B AM) as [A2 |] eqn:H1.
    { injection H as <-. exact (Horder A B A2 HA HB HAB H1). }
    destruct (match_in_order MaskedValueIsZero B A AM) as [A2 |] eqn:H2.
    { injection H as <-. apply (Horder B A A2 HB HA); [tauto | exact H2]. }
    exact (MatchAddressBase_takes_base _ _ _ H).
Qed.

Lemma MatchAddress_both_need_base A B AM :
  all_base_leaves A = true -> nonconst_leaves A <> [] ->
  all_base_leaves B = true -> nonconst_leaves B <> [] ->
  MatchAddress MaskedValueIsZero (ADD A B) AM
  = if base_free AM
    then (false, set_Base_Reg (set_BaseType AM RegBase) (Some (ADD A B)))
    else (true, AM).
Proof.
  intros HLA HNA HLB HNB.
  assert (Horder : forall P Q,
             all_base_leaves P = true -> nonconst_leaves P <> [] ->
             all_base_leaves Q = true -> nonconst_leaves Q <> [] ->
             match_in_order MaskedValueIsZero P Q AM = None).
  { intros P Q HLP HNP HLQ HNQ. unfold match_in_order.
    destruct (MatchAddress MaskedValueIsZero P AM) as [[] A1] eqn:HP;
      [reflexivity |].
    pose proof (MatchAddress_takes_base P AM A1 HLP HNP HP) as HF1.
    rewrite (MatchAddress_occupied_fails Q A1 HF1 HLQ HNQ). reflexivity. }
  rewrite MatchAddress_ADD, !Horder by assumption.
  destruct (base_free AM) eqn:HF.
  - apply MatchAddressBase_free. exact HF.
  - apply MatchAddressBase_occupied. exact HF.
Qed.

(** X5. An [ADD] whose two operands both need the base slot is not taken
    apart: met with a free base, the whole [ADD] node becomes the base
    register and nothing below it reaches the displacement; met with a
    taken base, the match fails. *)
Theorem MatchAddress_two_bases A B AM :
  all_base_leaves A = true -> nonconst_leaves A <> [] ->
  all_base_leaves B = true -> nonconst_leaves B <> [] ->
  MatchAddress MaskedValueIsZero (ADD A B) AM
  = if base_free AM
    then (false, set_Base_Reg (set_BaseType AM RegBase) (Some (ADD A B)))
    else (true, AM).
Proof. exact (MatchAddress_both_need_base A B AM). Qed.

End MatcherAdd.

Lemma MatchAddress_two_bases_witness :
  MatchAddress MaskedValueIsZero_constants
    (ADD (ADD (CopyFromReg 1) (Constant i32 4)) (FrameIndex 2))
    TriCoreISelAddressMode_new
  = (false,
     set_Base_Reg TriCoreISelAddressMode_new
       (Some (ADD (ADD (CopyFromReg 1) (Constant i32 4)) (FrameIndex 2)))).
Proof.
  apply (MatchAddress_two_bases MaskedValueIsZero_constants
           (ADD (CopyFromReg 1) (Constant i32 4)) (FrameIndex 2)
           TriCoreISelAddressMode_new).
  - reflexivity.
  - discriminate.
  - reflexivity.
  - discriminate.
Defined.

(** * Properties of [SelectAddr_new] *)

Lemma to_uint32_to_int64 x : to_uint 32 (to_int64 x) = x mod 2 ^ 32.
Proof. int_arith. Qed.

Lemma getTargetConstant_Disp x :
  getTargetConstant (to_int64 x) i32 = TargetConstant i32 (x mod 2 ^ 32).
Proof.
  unfold getTargetConstant. cbn [getSizeInBits].
  rewrite to_uint32_to_int64. reflexivity.
Qed.

(** The assertion of [getConstant] on an [i32]: the value, read as an
    [int64_t], lies in [[-2^32, 2^32)]. *)
Lemma getConstant_fits_i32 x :
  getConstant_fits x i32 = true <-> - 2 ^ 32 <= to_int64 x < 2 ^ 32.
Proof.
  unfold getConstant_fits. cbn [getSizeInBits].
  change (64 <=? 32) with false. cbn [orb].
  rewrite Z.shiftr_div_pow2 by lia.
  pose proof (to_int64_range x) as Hr. unfold INT64_MIN, INT64_MAX in Hr.
  set (y := to_int64 x) in *. clearbody y.
  rewrite Z.ltb_lt. unfold to_uint64, to_uint.
  change (2 ^ 64) with 18446744073709551616.
  change (2 ^ 63) with 9223372036854775808 in Hr.
  change (2 ^ 32) with 4294967296.
  split; intros H; Z.div_mod_to_equations; lia.
Qed.

Lemma getConstant_fits_small x :
  - 2 ^ 32 <= x < 2 ^ 32 -> getConstant_fits (to_int64 (0 + x)) i32 = true.
Proof.
  intros H. apply getConstant_fits_i32.
  assert (Hx : INT64_MIN <= x <= INT64_MAX).
  { unfold INT64_MIN, INT64_MAX.
    change (2 ^ 63) with 9223372036854775808.
    change (2 ^ 32) with 4294967296 in H. lia. }
  rewrite Z.add_0_l, !to_int64_small by (rewrite ?to_int64_small; exact Hx).
  exact H.
Qed.

Section SelectAddrFacts.

Variable MaskedValueIsZero : SDValue -> MVT -> Z -> bool.
Variable getValueType : SDValue -> MVT.

(** X6. [SelectAddr_new] (and so [SelectAddr]) never returns [false]: the
    mode it starts from has a free base, so the match cannot fail and
    every address gets a base and a displacement operand. *)
Theorem SelectAddr_new_always_selects N :
  exists Base Disp,
    SelectAddr_new MaskedValueIsZero getValueType N = Some (Base, Disp)
    /\ SelectAddr MaskedValueIsZero getValueType N = Some (Base, Disp).
Proof.
  unfold SelectAddr, SelectAddr_new.
  pose proof (MatchAddress_free_succeeds MaskedValueIsZero N
                TriCoreISelAddressMode_new eq_refl) as H.
  destruct (MatchAddress MaskedValueIsZero N TriCoreISelAddressMode_new)
    as [failed AM]. simpl in H. subst failed.
  destruct (isSome (GV AM)); eauto.
Qed.

(** X7. Whenever the match of [SelectAddr_new] leaves a frame-index base,
    the matcher has written [Base.FrameIndex]: [getTargetFrameIndex] is
    called on that index, also when a global is present and the operand it
    builds is then replaced by [N].  The base returned is the target frame
    index without a global and the address node with one. *)
Theorem SelectAddr_new_frame_index_set N failed AM :
  MatchAddress MaskedValueIsZero N TriCoreISelAddressMode_new = (failed, AM) ->
  BaseType AM = FrameIndexBase ->
  exists FI,
    Base_FrameIndex AM = Some FI
    /\ option_map fst (SelectAddr_new MaskedValueIsZero getValueType N)
       = Some (if isSome (GV AM) then BaseNode N else TargetFrameIndex FI).
Proof.
  intros HM HB.
  assert (HU : base_is_union AM).
  { apply (Reachable_union_discipline MaskedValueIsZero).
    exact (Reachable_MatchAddress _ _ _ _ _
             (Reachable_new MaskedValueIsZero) HM). }
  pose proof (MatchAddress_free_succeeds MaskedValueIsZero N
                TriCoreISelAddressMode_new eq_refl) as HF.
  unfold SelectAddr_new. rewrite HM in *. cbn [fst] in HF. subst failed.
  unfold base_is_union in HU. rewrite HB in *.
  destruct HU as [_ HU].
  destruct (Base_FrameIndex AM) as [FI |]; [| discriminate HU].
  exists FI. split; [reflexivity |].
  destruct (isSome (GV AM)); reflexivity.
Qed.

(** X8. For an address made of [ADD] nodes over constants and exactly one
    frame index or register-valued node [L], with the sum of the
    sign-extended constants in [[-2^32, 2^32)]: the displacement that
    [SelectAddr_new] hands to [getTargetConstant] passes the range test of
    [getConstant], and the results are the operand of [L] (the target
    frame index, or the node itself) as base and the 32-bit constant
    holding the low 32 bits of the sum as displacement. *)
Theorem SelectAddr_new_chain N L :
  nonconst_leaves N = [L] -> isBaseLeaf L = true ->
  - 2 ^ 32 <= const_sum N < 2 ^ 32 ->
  getConstant_fits
    (Disp (snd (MatchAddress MaskedValueIsZero N TriCoreISelAddressMode_new)))
    i32 = true
  /\ SelectAddr_new MaskedValueIsZero getValueType N
     = Some (leaf_operand L, TargetConstant i32 (const_sum N mod 2 ^ 32)).
Proof.
  intros HN HL HS. unfold SelectAddr_new.
  rewrite (MatchAddress_chain MaskedValueIsZero N L
             TriCoreISelAddressMode_new HN HL eq_refl eq_refl)
    by (unfold INT64_MIN, INT64_MAX; simpl; lia).
  split.
  - cbn [snd].
    replace (Disp (claim_base L
                     (add_Disp TriCoreISelAddressMode_new (const_sum N))))
      with (to_int64 (0 + const_sum N)) by (destruct L; reflexivity).
    apply getConstant_fits_small. exact HS.
  - destruct L; try discriminate HL; cbn [claim_base negb];
      unfold add_Disp, set_Disp, set_Base_Reg, set_BaseType,
        set_Base_FrameIndex;
      cbn [Disp BaseType Base_Reg Base_FrameIndex GV CP BlockAddr ES JT Align
           TriCoreISelAddressMode_new isSome leaf_operand];
      rewrite Z.add_0_l, getTargetConstant_Disp; reflexivity.
Qed.

(** X9. For an address made of constants only, with the sum of the
    sign-extended constants in [[-2^32, 2^32)]: the displacement passes
    the range test of [getConstant], and [SelectAddr_new] returns the
    placeholder register 0 as base and the 32-bit constant holding the low
    32 bits of the sum as displacement. *)
Theorem SelectAddr_new_constants N :
  nonconst_leaves N = [] ->
  - 2 ^ 32 <= const_sum N < 2 ^ 32 ->
  getConstant_fits
    (Disp (snd (MatchAddress MaskedValueIsZero N TriCoreISelAddressMode_new)))
    i32 = true
  /\ SelectAddr_new MaskedValueIsZero getValueType N
     = Some (Register 0 (getValueType N),
             TargetConstant i32 (const_sum N mod 2 ^ 32)).
Proof.
  intros HN HS. unfold SelectAddr_new.
  rewrite (MatchAddress_constants MaskedValueIsZero N _ HN).
  split.
  - apply getConstant_fits_small. exact HS.
  - unfold add_Disp, set_Disp.
    cbn [Disp BaseType Base_Reg Base_FrameIndex GV CP BlockAddr ES JT Align
         TriCoreISelAddressMode_new isSome].
    rewrite Z.add_0_l, getTargetConstant_Disp. reflexivity.
Qed.

(** X10. For an [ADD] whose two operands both need the base slot,
    [SelectAddr_new] returns the [ADD] node itself as base with
    displacement 0: constants below it are not folded. *)
Theorem SelectAddr_new_two_bases A B :
  all_base_leaves A = true -> nonconst_leaves A <> [] ->
  all_base_leaves B = true -> nonconst_leaves B <> [] ->
  SelectAddr_new MaskedValueIsZero getValueType (ADD A B)
  = Some (BaseNode (ADD A B), TargetConstant i32 0).
Proof.
  intros HLA HNA HLB HNB. unfold SelectAddr_new.
  rewrite (MatchAddress_both_need_base MaskedValueIsZero A B _ HLA HNA HLB HNB).
  reflexivity.
Qed.

End SelectAddrFacts.

Lemma SelectAddr_new_frame_index_set_witness :
  option_map fst
    (SelectAddr_new MaskedValueIsZero_constants (fun _ => i32)
       (ADD (FrameIndex 1) (Wrapper (GlobalAddress "g"%string 0))))
  = Some (BaseNode (ADD (FrameIndex 1) (Wrapper (GlobalAddress "g"%string 0)))).
Proof.
  destruct (SelectAddr_new_frame_index_set MaskedValueIsZero_constants
              (fun _ => i32)
              (ADD (FrameIndex 1) (Wrapper (GlobalAddress "g"%string 0)))
              false
              (snd (MatchAddress MaskedValueIsZero_constants
                      (ADD (FrameIndex 1)
                           (Wrapper (GlobalAddress "g"%string 0)))
                      TriCoreISelAddressMode_new))
              eq_refl eq_refl)
    as (FI & _ & H).
  exact H.
Defined.

Lemma SelectAddr_new_chain_witness :
  SelectAddr_new MaskedValueIsZero_constants (fun _ => i32)
    (ADD (Constant i32 4) (ADD (FrameIndex 2) (Constant i32 (-12))))
  = Some (TargetFrameIndex 2, TargetConstant i32 (2 ^ 32 - 8)).
Proof.
  apply (SelectAddr_new_chain MaskedValueIsZero_constants (fun _ => i32)
           (ADD (Constant i32 4) (ADD (FrameIndex 2) (Constant i32 (-12))))
           (FrameIndex 2)).
  - reflexivity.
  - reflexivity.
  - vm_compute. split; [discriminate | reflexivity].
Defined.

Lemma SelectAddr_new_constants_witness :
  SelectAddr_new MaskedValueIsZero_constants (fun _ => i32)
    (ADD (Constant i32 0x100) (Constant i32 0x20))
  = Some (Register 0 i32, TargetConstant i32 0x120).
Proof.
  apply (SelectAddr_new_constants MaskedValueIsZero_constants (fun _ => i32)
           (ADD (Constant i32 0x100) (Constant i32 0x20))).
  - reflexivity.
  - vm_compute. split; [discriminate | reflexivity].
Defined.

Lemma SelectAddr_new_two_bases_witness :
  SelectAddr_new MaskedValueIsZero_constants (fun _ => i32)
    (ADD (CopyFromReg 1) (ADD (CopyFromReg 2) (Constant i32 4)))
  = Some (BaseNode (ADD (CopyFromReg 1) (ADD (CopyFromReg 2) (Constant i32 4))),
          TargetConstant i32 0).
Proof.
  apply (SelectAddr_new_two_bases MaskedValueIsZero_constants (fun _ => i32)
           (CopyFromReg 1) (ADD (CopyFromReg 2) (Constant i32 4))).
  - reflexivity.
  - discriminate.
  - reflexivity.
  - discriminate.
Defined.

Section GlobalChains.

Variable MaskedValueIsZero : SDValue -> MVT -> Z -> bool.
Variable getValueType : SDValue -> MVT.

(** A chain with the wrapped address of a global as only non-constant leaf,
    met by a mode without symbol: the global is recorded, its offset and the
    constants go to the displacement, the base slot is not touched. *)
Lemma MatchAddress_global_chain G Offset N :
  forall AM,
    nonconst_leaves N = [Wrapper (GlobalAddress G Offset)] ->
    hasSymbolicDisplacement AM = false ->
    MatchAddress MaskedValueIsZero N AM
    = (false, add_Disp (set_GV AM (Some G)) (Offset + const_sum N)).
Proof.
  induction N as [VT Val | FI | Op _ | | | | | | A IHA B IHB | X _ C _ | |];
    intros AM HN HS; cbn [nonconst_leaves] in HN; try discriminate HN.
  - injection HN as ->.
    rewrite MatchAddress_Wrapper. unfold MatchWrapper. rewrite HS.
    cbn [getOperand nth_error const_sum]. rewrite Z.add_0_r. reflexivity.
  - cbn [const_sum]. rewrite MatchAddress_ADD. unfold match_in_order.
    apply app_eq_unit in HN. destruct HN as [[HA HB] | [HA HB]].
    + rewrite (MatchAddress_constants MaskedValueIsZero A _ HA).
      rewrite (IHB (add_Disp AM (const_sum A)) HB HS).
      change (set_GV (add_Disp AM (const_sum A)) (Some G))
        with (add_Disp (set_GV AM (Some G)) (const_sum A)).
      rewrite add_Disp_add_Disp. do 2 f_equal. ring.
    + rewrite (IHA AM HA HS).
      rewrite (MatchAddress_constants MaskedValueIsZero B _ HB).
      rewrite add_Disp_add_Disp. do 2 f_equal. ring.
Qed.

(** X11. For an address made of [ADD] nodes over constants and exactly one
    wrapped global address, with the global's offset plus the sum of the
    sign-extended constants in [[-2^32, 2^32)]: the displacement passes
    the range test of [getConstant], and [SelectAddr_new] returns the
    address node itself as base and the 32-bit constant holding the low
    32 bits of offset plus sum as displacement. *)
Theorem SelectAddr_new_global N G Offset :
  nonconst_leaves N = [Wrapper (GlobalAddress G Offset)] ->
  - 2 ^ 32 <= Offset + const_sum N < 2 ^ 32 ->
  getConstant_fits
    (Disp (snd (MatchAddress MaskedValueIsZero N TriCoreISelAddressMode_new)))
    i32 = true
  /\ SelectAddr_new MaskedValueIsZero getValueType N
     = Some (BaseNode N,
             TargetConstant i32 ((Offset + const_sum N) mod 2 ^ 32)).
Proof.
  intros HN HS. unfold SelectAddr_new.
  rewrite (MatchAddress_global_chain G Offset N
             TriCoreISelAddressMode_new HN eq_refl).
  split.
  - apply getConstant_fits_small. exact HS.
  - unfold add_Disp, set_Disp, set_GV.
    cbn [Disp BaseType Base_Reg Base_FrameIndex GV CP BlockAddr ES JT Align
         TriCoreISelAddressMode_new isSome].
    rewrite Z.add_0_l, getTargetConstant_Disp. reflexivity.
Qed.

End GlobalChains.

Lemma SelectAddr_new_global_witness :
  SelectAddr_new MaskedValueIsZero_constants (fun _ => i32)
    (ADD (Wrapper (GlobalAddress "g"%string 16)) (Constant i32 4))
  = Some (BaseNode (ADD (Wrapper (GlobalAddress "g"%string 16))
                        (Constant i32 4)),
          TargetConstant i32 20).
Proof.
  apply (SelectAddr_new_global MaskedValueIsZero_constants (fun _ => i32)
           (ADD (Wrapper (GlobalAddress "g"%string 16)) (Constant i32 4))
           "g"%string 16).
  - reflexivity.
  - vm_compute. split; [discriminate | reflexivity].
Defined.

(** * Further properties of [SelectConstant] *)

Lemma getZExtValue_mod VT Val :
  getZExtValue VT (Val mod 2 ^ getSizeInBits VT) = getZExtValue VT Val.
Proof. unfold getZExtValue. destruct VT; cbn [getSizeInBits]; int_arith. Qed.

Lemma getSExtValue_mod VT Val :
  getSExtValue VT (Val mod 2 ^ getSizeInBits VT) = getSExtValue VT Val.
Proof. unfold getSExtValue. destruct VT; cbn [getSizeInBits]; int_arith. Qed.

(** Only the bits of the constant that its type holds matter. *)
Lemma SelectConstant_mod VT Val :
  SelectConstant VT (Val mod 2 ^ getSizeInBits VT) = SelectConstant VT Val.
Proof.
  unfold SelectConstant, SelectConstant_narrow. cbv zeta.
  rewrite getZExtValue_mod, getSExtValue_mod. reflexivity.
Qed.

Lemma SelectConstant_i32_selects v :
  0 <= v < 2 ^ 32 -> exists n, SelectConstant i32 v = Selected n.
Proof.
  intros Hr. destruct (SelectConstant i32 v) as [n | |] eqn:H;
    [eexists; reflexivity | exfalso | exfalso].
  all: rewrite SelectConstant_i32_narrow in H;
    unfold SelectConstant_narrow in H; cbv zeta in H;
    rewrite ImmVal_i32, ImmSVal_i32, land_LoMask, land_HiMask in H
      by assumption.
  all: repeat (step_if; try discriminate).
  destruct (Z.ltb_spec v (2 ^ 31)); int_arith.
Qed.

Lemma SelectConstant_i32_selects_any Val :
  exists n, SelectConstant i32 Val = Selected n.
Proof.
  rewrite <- SelectConstant_mod. apply SelectConstant_i32_selects.
  cbn [getSizeInBits]. apply Z.mod_pos_bound. lia.
Qed.

(** X12. A 32-bit constant is always materialised by [SelectConstant]
    itself: it is never handed to the generic selector, and the local
    [Move] is never returned unassigned. *)
Theorem SelectConstant_i32_total Val :
  exists n, SelectConstant i32 Val = Selected n.
Proof. exact (SelectConstant_i32_selects_any Val). Qed.

(** X13. Whatever the type and the value, the code that [SelectConstant]
    builds is one instruction with constant operands, or one add
    ([ADDsrc], [ADDrc] or [ADDIrlc]) of a constant to the result of one
    [MOVHrlc]: never more than two instructions. *)
Theorem SelectConstant_at_most_two VT Val n :
  SelectConstant VT Val = Selected n ->
  single_instruction n = true \/ movh_then_add n = true.
Proof.
  assert (Hnarrow : forall VT Val n,
             SelectConstant_narrow VT Val = Selected n ->
             single_instruction n = true \/ movh_then_add n = true).
  { clear. intros VT Val n H. unfold SelectConstant_narrow in H.
    cbv zeta in H.
    repeat (step_if; try discriminate);
      injection H as <-;
      cbn [single_instruction movh_then_add forallb operand_is_constant
           getTargetConstant andb];
      auto. }
  unfold SelectConstant. intros H.
  destruct (MVT_eqb VT i64); [| exact (Hnarrow _ _ _ H)].
  cbv zeta in H.
  set (lower := to_uint32 (Z.land (getZExtValue VT Val) 0x00000000ffffffff))
    in *.
  set (higher := to_uint32 (Z.shiftr (getZExtValue VT Val) 32)) in *.
  set (pl := getFFS lower) in *. set (ph := getFFS higher) in *.
  set (sl := getNumSetBits lower) in *. set (sh := getNumSetBits higher) in *.
  set (nl := getNumConsecutiveOnes lower) in *.
  set (nh := getNumConsecutiveOnes higher) in *.
  clearbody pl ph sl sh nl nh lower higher.
  assert (Hone : forall c p w,
             single_instruction
               (MachineNode IMASKrcpw i64
                  [getTargetConstant c i32; getTargetConstant p i32;
                   getTargetConstant w i32]) = true) by reflexivity.
  step_if; [injection H as <-; left; apply Hone |].
  step_if; [discriminate |].
  step_if.
  { step_if; [discriminate |]. step_if; [discriminate |].
    injection H as <-. left. apply Hone. }
  step_if; [| exact (Hnarrow VT Val n H)].
  step_if; [discriminate |]. step_if; [discriminate |].
  injection H as <-. left. apply Hone.
Qed.

Lemma SelectConstant_at_most_two_witness :
  single_instruction
    (MachineNode ADDsrc i32
       [Result (MachineNode MOVHrlc i32 [TargetConstant i32 0x1235]) 0;
        TargetConstant i32 0xffff]) = true
  \/ movh_then_add
       (MachineNode ADDsrc i32
          [Result (MachineNode MOVHrlc i32 [TargetConstant i32 0x1235]) 0;
           TargetConstant i32 0xffff]) = true.
Proof.
  apply (SelectConstant_at_most_two i32 0x1234ffff). reflexivity.
Defined.

(** The halves of a 64-bit constant. *)
Lemma i64_halves Val :
  let v := getZExtValue i64 Val in
  to_uint32 (Z.land v 0x00000000ffffffff) = v mod 2 ^ 32
  /\ to_uint32 (Z.shiftr v 32) = v / 2 ^ 32
  /\ 0 <= v < 2 ^ 64.
Proof.
  cbv zeta. rewrite land_uint32_mask, Z.shiftr_div_pow2 by lia.
  unfold getZExtValue. cbn [getSizeInBits]. repeat split; int_arith.
Qed.

(** The four tests of the [MVT::i64] block are exhaustive: a 64-bit
    constant never reaches the move/add part below it. *)
Lemma SelectConstant_i64_cases Val :
  SelectConstant i64 Val = SelectCode
  \/ exists ops,
      SelectConstant i64 Val = Selected (MachineNode IMASKrcpw i64 ops).
Proof.
  destruct (i64_halves Val) as (Hl & Hh & Hv). cbv zeta in Hl, Hh, Hv.
  unfold SelectConstant. cbn [MVT_eqb]. cbv zeta.
  set (v := getZExtValue i64 Val) in *.
  set (lower := to_uint32 (Z.land v 0x00000000ffffffff)) in *.
  set (higher := to_uint32 (Z.shiftr v 32)) in *.
  set (pl := getFFS lower). set (ph := getFFS higher).
  set (sl := getNumSetBits lower). set (sh := getNumSetBits higher).
  set (nl := getNumConsecutiveOnes lower).
  set (nh := getNumConsecutiveOnes higher).
  clearbody pl ph sl sh nl nh lower higher.
  destruct (v =? 0) eqn:Hz; [right; eexists; reflexivity |].
  destruct ((getSExtValue i64 Val <? 0)
            || negb (higher =? 0) && negb (lower =? 0)) eqn:H1;
    [left; reflexivity |].
  destruct ((higher =? 0) && negb (lower =? 0)) eqn:H2.
  { destruct (negb (to_uint64 sl =? to_uint64 nl)); [left; reflexivity |].
    destruct (to_uint64 nl >? 4); [left; reflexivity |].
    right; eexists; reflexivity. }
  destruct (negb (higher =? 0) && (lower =? 0)) eqn:H3.
  { destruct (negb (to_uint64 sh =? to_uint64 nh)); [left; reflexivity |].
    destruct (to_uint64 (to_uint64 (ph - 1) + to_uint64 nh) >? 31);
      [left; reflexivity |].
    right; eexists; reflexivity. }
  exfalso. bool_prop Hz. bool_prop H1. bool_prop H2. bool_prop H3.
  assert (higher = 0 /\ lower = 0) as [Hh0 Hl0] by lia.
  rewrite Hh0 in Hh. rewrite Hl0 in Hl. clear - Hz Hh Hl Hv.
  int_arith.
Qed.

(** Constants of a type narrower than 32 bits: one [MOVrlc] of the value
    when the sign bit is clear, the unassigned [Move] when it is set. *)
Lemma SelectConstant_narrow_type VT Val :
  getSizeInBits VT < 32 ->
  SelectConstant VT Val
  = if getSExtValue VT Val <? 0 then UnassignedMove
    else Selected (MachineNode MOVrlc i32
                     [TargetConstant i32 (getZExtValue VT Val)]).
Proof.
  intros Hbits.
  assert (Hv : 0 <= getZExtValue VT Val < 2 ^ 16
               /\ ((getSExtValue VT Val < 0 /\ getZExtValue VT Val <> 0) \/
                   (getSExtValue VT Val = getZExtValue VT Val
                    /\ getZExtValue VT Val < 32768))).
  { unfold getZExtValue, getSExtValue.
    destruct VT; cbn [getSizeInBits] in *; try lia; int_arith. }
  assert (Hnarrow : SelectConstant VT Val = SelectConstant_narrow VT Val)
    by (destruct VT; cbn [getSizeInBits] in Hbits; try lia; reflexivity).
  rewrite Hnarrow. unfold SelectConstant_narrow. cbv zeta.
  rewrite land_LoMask, land_HiMask.
  set (v := getZExtValue VT Val) in *. set (S := getSExtValue VT Val) in *.
  clearbody v S. destruct Hv as [Hv HS].
  replace (v mod 2 ^ 16) with v by int_arith.
  replace (v / 2 ^ 16 mod 2 ^ 16 * 2 ^ 16) with 0 by int_arith.
  rewrite (getTargetConstant_i32 v) by lia.
  cbn [Z.eqb andb negb].
  destruct (Z.eqb_spec v 0) as [-> | Hnz]; cbn [negb].
  - destruct HS as [[_ HS] | [-> _]]; [congruence | reflexivity].
  - destruct HS as [[HS _] | [-> Hsmall]].
    + replace (S <? 0) with true by (symmetry; apply Z.ltb_lt; lia).
      repeat (step_if; try lia); reflexivity.
    + replace (v <? 0) with false by (symmetry; apply Z.ltb_ge; lia).
      repeat (step_if; try lia); reflexivity.
Qed.

(** X14. [SelectConstant] returns its local [Move] without any branch
    having assigned it exactly for the constants of a type narrower than 32
    bits whose sign bit is set: their zero-extended value has a zero high
    half-word and a non-zero low one, and their sign-extended value is in
    neither of the two ranges tested.  With the sign bit clear such a
    constant is one [MOVrlc] of its value. *)
Theorem SelectConstant_unassigned VT Val :
  (SelectConstant VT Val = UnassignedMove
   <-> (getSizeInBits VT < 32 /\ getSExtValue VT Val < 0))
  /\ (getSizeInBits VT < 32 -> 0 <= getSExtValue VT Val ->
      SelectConstant VT Val
      = Selected (MachineNode MOVrlc i32
                    [TargetConstant i32 (getZExtValue VT Val)])).
Proof.
  split; [split |].
  - intros H.
    destruct (Z.ltb_spec (getSizeInBits VT) 32) as [Hbits | Hbits].
    + split; [exact Hbits |].
      rewrite SelectConstant_narrow_type in H by assumption.
      destruct (Z.ltb_spec (getSExtValue VT Val) 0); [assumption |].
      discriminate.
    + exfalso. destruct VT; cbn [getSizeInBits] in Hbits; try lia.
      * destruct (SelectConstant_i32_selects_any Val) as [n Hn]. congruence.
      * destruct (SelectConstant_i64_cases Val) as [Hn | [ops Hn]];
          congruence.
  - intros [Hbits Hneg]. rewrite SelectConstant_narrow_type by assumption.
    apply Z.ltb_lt in Hneg. rewrite Hneg. reflexivity.
  - intros Hbits Hpos. rewrite SelectConstant_narrow_type by assumption.
    apply Z.ltb_ge in Hpos. rewrite Hpos. reflexivity.
Qed.

Lemma SelectConstant_unassigned_witness :
  SelectConstant i16 0x7fff
  = Selected (MachineNode MOVrlc i32
                [TargetConstant i32 (getZExtValue i16 0x7fff)]).
Proof.
  apply (proj2 (SelectConstant_unassigned i16 0x7fff)).
  - reflexivity.
  - discriminate.
Defined.

(** X15. A 32-bit constant with both half-words non-zero: when its signed
    value is in [-32768, 0) it is one [MOVrlc] of the value; otherwise it
    is a [MOVHrlc] of the rounded high half-word followed by exactly one
    add of the low half-word [lo]: [ADDsrc] when [lo < 8] or
    [lo >= 65528], [ADDrc] when [8 <= lo < 256], [ADDIrlc] otherwise. *)
Theorem SelectConstant_i32_both_halves v :
  0 <= v < 2 ^ 32 -> v mod 2 ^ 16 <> 0 -> 2 ^ 16 <= v ->
  (2 ^ 32 - 32768 <= v ->
   SelectConstant i32 v
   = Selected (MachineNode MOVrlc i32 [TargetConstant i32 v]))
  /\ (v < 2 ^ 32 - 32768 ->
      SelectConstant i32 v
      = Selected
          (MachineNode (add_variant (v mod 2 ^ 16)) i32
             [Result
                (MachineNode MOVHrlc i32
                   [TargetConstant i32 ((v + 2 ^ 15) / 2 ^ 16 mod 2 ^ 16)])
                0;
              TargetConstant i32 (v mod 2 ^ 16)])).
Proof.
  intros Hr Hlo Hhi.
  pose proof (computeHiShift_i32 v Hr) as Hshift.
  assert (HSLo : to_int64
                   (to_uint64
                      (Z.land (to_uint64 (getSExtValue i32 v)) 0xffff - 65536))
                 = v mod 2 ^ 16 - 65536).
  { rewrite land_LoMask, ImmSVal_i32 by assumption.
    destruct (Z.ltb_spec v (2 ^ 31)); int_arith. }
  rewrite SelectConstant_i32_narrow. unfold SelectConstant_narrow.
  cbv zeta. rewrite Hshift, HSLo.
  rewrite ImmVal_i32, ImmSVal_i32, land_LoMask, land_HiMask by assumption.
  set (lo := v mod 2 ^ 16) in *.
  set (hi := (v + 2 ^ 15) / 2 ^ 16 mod 2 ^ 16).
  assert (Hlo16 : 0 <= lo < 2 ^ 16) by (apply Z.mod_pos_bound; lia).
  assert (Hhi16 : 0 <= hi < 2 ^ 16) by (apply Z.mod_pos_bound; lia).
  assert (Hhinz : v / 2 ^ 16 mod 2 ^ 16 * 2 ^ 16 <> 0) by int_arith.
  rewrite (getTargetConstant_i32 lo), (getTargetConstant_i32 hi),
    (getTargetConstant_i32 v) by lia.
  assert (HS : getTargetConstant (if v <? 2 ^ 31 then v else v - 2 ^ 32) i32
               = TargetConstant i32 v).
  { unfold getTargetConstant. cbn [getSizeInBits]. f_equal.
    destruct (Z.ltb_spec v (2 ^ 31)); int_arith. }
  rewrite HS. clearbody hi. clear Hshift HSLo HS.
  unfold add_variant.
  split; intros Hv.
  - replace (v <? 2 ^ 31) with false by (symmetry; apply Z.ltb_ge; lia).
    repeat (step_if; try lia); try reflexivity.
  - destruct (Z.ltb_spec v (2 ^ 31)).
    all: repeat (step_if; try lia).
    all: repeat match goal with
           | |- context [if ?c then _ else _] =>
               let Hx := fresh "Hx" in destruct c eqn:Hx; bool_prop Hx
           end;
         try reflexivity; exfalso; lia.
Qed.

Lemma SelectConstant_i32_both_halves_witness :
  SelectConstant i32 0x12345678
  = Selected
      (MachineNode (add_variant (0x12345678 mod 2 ^ 16)) i32
         [Result
            (MachineNode MOVHrlc i32
               [TargetConstant i32 ((0x12345678 + 2 ^ 15) / 2 ^ 16 mod 2 ^ 16)])
            0;
          TargetConstant i32 (0x12345678 mod 2 ^ 16)]).
Proof.
  apply (proj2 (SelectConstant_i32_both_halves 0x12345678
                  ltac:(lia) ltac:(discriminate) ltac:(lia))).
  lia.
Defined.

(** * What the bit helpers compute *)

Lemma pos_ctz_spec p :
  Z.testbit (Zpos p) (pos_ctz p) = true
  /\ forall j, 0 <= j < pos_ctz p -> Z.testbit (Zpos p) j = false.
Proof.
  induction p as [p IH | p IH |]; cbn [pos_ctz].
  - split; [reflexivity | intros j Hj; lia].
  - destruct IH as [IH1 IH2]. destruct (pos_ctz_bound p) as [Hc _].
    change (Zpos p~0) with (2 * Zpos p). split.
    + replace (1 + pos_ctz p) with (Z.succ (pos_ctz p)) by lia.
      rewrite Z.testbit_even_succ by assumption. exact IH1.
    + intros j Hj. destruct (Z.eq_dec j 0) as [-> | Hnz].
      * apply Z.testbit_even_0.
      * replace j with (Z.succ (j - 1)) by lia.
        rewrite Z.testbit_even_succ by lia. apply IH2. lia.
  - split; [reflexivity | intros j Hj; lia].
Qed.

(** X16. [getFFS] is "find first set" on a 32-bit word: 0 for the word 0;
    otherwise one plus the index of the least significant 1-bit, a number
    in [1, 32] with that bit set and every lower bit clear. *)
Theorem getFFS_spec v :
  0 <= v < 2 ^ 32 ->
  (v = 0 -> getFFS v = 0)
  /\ (v <> 0 ->
      1 <= getFFS v <= 32
      /\ Z.testbit v (getFFS v - 1) = true
      /\ forall j, 0 <= j < getFFS v - 1 -> Z.testbit v j = false).
Proof.
  intros Hv. split; [intros ->; reflexivity |]. intros Hnz.
  pose proof (getFFS_range v) as Hr.
  unfold getFFS in *. rewrite (to_uint32_small v Hv) in *.
  destruct v as [| p | p]; try lia.
  destruct (pos_ctz_spec p) as [H1 H2]. destruct (pos_ctz_bound p) as [Hc _].
  replace (1 + pos_ctz p - 1) with (pos_ctz p) by lia.
  repeat split; try lia; assumption.
Qed.

Lemma getFFS_spec_witness :
  1 <= getFFS 0x50 <= 32
  /\ Z.testbit 0x50 (getFFS 0x50 - 1) = true
  /\ forall j, 0 <= j < getFFS 0x50 - 1 -> Z.testbit 0x50 j = false.
Proof.
  apply (proj2 (getFFS_spec 0x50 ltac:(lia))). discriminate.
Defined.

Lemma all_from_sound f k :
  forall x, all_from k x f = true ->
            forall y, x <= y < x + Z.of_nat k -> f y = true.
Proof.
  induction k as [| k IH]; intros x H y Hy.
  - simpl in Hy. lia.
  - cbn [all_from] in H. apply andb_true_iff in H. destruct H as [Hx Hrest].
    rewrite Nat2Z.inj_succ in Hy.
    destruct (Z.eq_dec y x) as [-> | Hne]; [exact Hx |].
    apply (IH (x + 1) Hrest). lia.
Qed.

Lemma ipow_checked :
  all_from 31 0 (fun n => ipow n =? 2 ^ n) = true.
Proof. vm_compute. reflexivity. Qed.

(** X17. [ipow] computes the power of two of its argument: [ipow n = 2^n]
    for [0 <= n <= 30] (the results an [int] holds), and [ipow n = 1] for
    [n <= 0], where the loop body is never entered. *)
Theorem ipow_spec n :
  (n <= 0 -> ipow n = 1) /\ (0 <= n <= 30 -> ipow n = 2 ^ n).
Proof.
  split; intros Hn.
  - unfold ipow. destruct n; try lia; reflexivity.
  - apply Z.eqb_eq.
    apply (all_from_sound _ 31 0 ipow_checked n).
    change (Z.of_nat 31) with 31. lia.
Qed.

Lemma ipow_spec_witness : ipow (-3) = 1 /\ ipow 4 = 2 ^ 4.
Proof.
  split.
  - apply (proj1 (ipow_spec (-3))). lia.
  - apply (proj2 (ipow_spec 4)). lia.
Defined.

Lemma half_check_all : all_from (Z.to_nat 65536) 0 half_check = true.
Proof. vm_compute. reflexivity. Qed.

Lemma half_facts x :
  0 <= x < 65536 ->
  let s1 := half_step1 x in
  let s2 := half_step2 s1 in
  let s3 := half_step3 s2 in
  0 <= s1 < 65536
  /\ 0 <= s2 <= 0x4444 /\ s2 mod 16 <= 4
  /\ 0 <= s3 /\ s3 mod 256 <= 8 /\ s3 / 256 <= 8
  /\ half_count x = popcount_upto 16 x.
Proof.
  intros Hx.
  pose proof (all_from_sound _ _ 0 half_check_all x) as H.
  rewrite Z2Nat.id in H by lia. specialize (H ltac:(lia)).
  unfold half_check in H. cbv zeta in H |- *.
  repeat (apply andb_true_iff in H; destruct H as [H ?]).
  repeat match goal with
    | Hb : (_ <=? _) = true |- _ => apply Z.leb_le in Hb
    | Hb : (_ <? _) = true |- _ => apply Z.ltb_lt in Hb
    | Hb : (_ =? _) = true |- _ => apply Z.eqb_eq in Hb
    end.
  repeat split; assumption.
Qed.

Lemma land_mask_low k x m :
  0 <= k -> 0 <= m < 2 ^ k -> Z.land x m = Z.land (x mod 2 ^ k) m.
Proof.
  intros Hk Hm. apply Z.bits_inj'. intros n Hn. rewrite !Z.land_spec.
  destruct (Z.ltb_spec n k).
  - rewrite Z.mod_pow2_bits_low by lia. reflexivity.
  - assert (Hbit : Z.testbit m n = false).
    { rewrite <- (Z.mod_small m (2 ^ k)) by lia.
      apply Z.mod_pow2_bits_high. lia. }
    rewrite Hbit, !andb_false_r. reflexivity.
Qed.

Lemma testbit_halves x0 x1 n :
  0 <= x0 < 2 ^ 16 -> 0 <= n ->
  Z.testbit (x0 + 65536 * x1) n
  = if n <? 16 then Z.testbit x0 n else Z.testbit x1 (n - 16).
Proof.
  intros Hx Hn.
  assert (Hmod : (x0 + 65536 * x1) mod 2 ^ 16 = x0) by int_arith.
  assert (Hdiv : (x0 + 65536 * x1) / 2 ^ 16 = x1) by int_arith.
  destruct (Z.ltb_spec n 16).
  - rewrite <- Hmod at 2. rewrite Z.mod_pow2_bits_low by lia. reflexivity.
  - rewrite <- Hdiv at 2. rewrite Z.div_pow2_bits by lia.
    f_equal. lia.
Qed.

Lemma land_16_range x y : 0 <= y < 2 ^ 16 -> 0 <= Z.land x y < 2 ^ 16.
Proof.
  intros Hy.
  assert (H : Z.land x y = Z.land x y mod 2 ^ 16).
  { rewrite <- Z.land_ones, <- Z.land_assoc, Z.land_ones by lia.
    rewrite Z.mod_small by assumption. reflexivity. }
  rewrite H. apply Z.mod_pos_bound. lia.
Qed.

Lemma land_split16 x0 x1 y0 y1 :
  0 <= x0 < 2 ^ 16 -> 0 <= y0 < 2 ^ 16 ->
  Z.land (x0 + 65536 * x1) (y0 + 65536 * y1)
  = Z.land x0 y0 + 65536 * Z.land x1 y1.
Proof.
  intros Hx Hy. apply Z.bits_inj'. intros n Hn.
  rewrite Z.land_spec, !testbit_halves
    by (assumption || apply land_16_range; assumption).
  destruct (n <? 16); rewrite Z.land_spec; reflexivity.
Qed.

Lemma step1_halves a b :
  0 <= a < 65536 -> 0 <= b < 65536 ->
  (a + 65536 * b) - Z.land (Z.shiftr (a + 65536 * b) 1) 0x55555555
  = half_step1 a + 65536 * half_step1 b.
Proof.
  intros Ha Hb. unfold half_step1. rewrite !Z.shiftr_div_pow2 by lia.
  replace ((a + 65536 * b) / 2 ^ 1)
    with ((a / 2 ^ 1 + 32768 * (b mod 2)) + 65536 * (b / 2 ^ 1))
    by int_arith.
  change 0x55555555 with (0x5555 + 65536 * 0x5555).
  rewrite land_split16 by int_arith.
  rewrite (land_mask_low 15 (a / 2 ^ 1 + 32768 * (b mod 2))) by lia.
  replace ((a / 2 ^ 1 + 32768 * (b mod 2)) mod 2 ^ 15) with (a / 2 ^ 1)
    by int_arith.
  ring.
Qed.

Lemma step2_halves a b :
  0 <= a < 65536 -> 0 <= b < 65536 ->
  Z.land (a + 65536 * b) 0x33333333
  + Z.land (Z.shiftr (a + 65536 * b) 2) 0x33333333
  = half_step2 a + 65536 * half_step2 b.
Proof.
  intros Ha Hb. unfold half_step2. rewrite !Z.shiftr_div_pow2 by lia.
  replace ((a + 65536 * b) / 2 ^ 2)
    with ((a / 2 ^ 2 + 16384 * (b mod 4)) + 65536 * (b / 2 ^ 2))
    by int_arith.
  change 0x33333333 with (0x3333 + 65536 * 0x3333).
  rewrite !land_split16 by int_arith.
  rewrite (land_mask_low 14 (a / 2 ^ 2 + 16384 * (b mod 4))) by lia.
  replace ((a / 2 ^ 2 + 16384 * (b mod 4)) mod 2 ^ 14) with (a / 2 ^ 2)
    by int_arith.
  ring.
Qed.

Lemma step3_halves a b :
  0 <= a <= 0x4444 -> 0 <= b <= 0x4444 -> b mod 16 <= 4 ->
  Z.land (to_uint32 ((a + 65536 * b) + Z.shiftr (a + 65536 * b) 4)) 0xF0F0F0F
  = half_step3 a + 65536 * half_step3 b.
Proof.
  intros Ha Hb Hb4. unfold half_step3. rewrite !Z.shiftr_div_pow2 by lia.
  replace (to_uint32 (a + 65536 * b + (a + 65536 * b) / 2 ^ 4))
    with ((a + a / 2 ^ 4 + 4096 * (b mod 16)) + 65536 * (b + b / 2 ^ 4))
    by int_arith.
  change 0xF0F0F0F with (0x0F0F + 65536 * 0x0F0F).
  rewrite land_split16 by int_arith.
  rewrite (land_mask_low 12 (a + a / 2 ^ 4 + 4096 * (b mod 16))) by lia.
  rewrite (land_mask_low 12 (a + a / 2 ^ 4)) by lia.
  replace ((a + a / 2 ^ 4 + 4096 * (b mod 16)) mod 2 ^ 12)
    with ((a + a / 2 ^ 4) mod 2 ^ 12) by int_arith.
  reflexivity.
Qed.

Lemma step4_halves a b :
  0 <= a -> a mod 256 <= 8 -> a / 256 <= 8 ->
  0 <= b -> b mod 256 <= 8 -> b / 256 <= 8 ->
  to_int32 (Z.shiftr (to_uint32 ((a + 65536 * b) * 0x1010101)) 24)
  = (a mod 256 + a / 256) + (b mod 256 + b / 256).
Proof.
  intros Ha Ha0 Ha1 Hb Hb0 Hb1. rewrite Z.shiftr_div_pow2 by lia.
  assert (Ea : a = a mod 256 + 256 * (a / 256)) by int_arith.
  assert (Eb : b = b mod 256 + 256 * (b / 256)) by int_arith.
  assert (Hp0 : 0 <= a mod 256) by (apply Z.mod_pos_bound; lia).
  assert (Hp1 : 0 <= a / 256) by (apply Z.div_pos; lia).
  assert (Hp2 : 0 <= b mod 256) by (apply Z.mod_pos_bound; lia).
  assert (Hp3 : 0 <= b / 256) by (apply Z.div_pos; lia).
  set (p0 := a mod 256) in *. set (p1 := a / 256) in *.
  set (p2 := b mod 256) in *. set (p3 := b / 256) in *.
  clearbody p0 p1 p2 p3. subst a b.
  replace ((p0 + 256 * p1 + 65536 * (p2 + 256 * p3)) * 0x1010101)
    with ((p0 + 256 * (p0 + p1) + 65536 * (p0 + p1 + p2)
           + 16777216 * (p0 + p1 + p2 + p3))
          + (p1 + p2 + p3 + 256 * (p2 + p3) + 65536 * p3) * 2 ^ 32)
    by ring.
  unfold to_uint32, to_uint. rewrite Z_mod_plus_full.
  rewrite Z.mod_small by lia.
  replace ((p0 + 256 * (p0 + p1) + 65536 * (p0 + p1 + p2)
            + 16777216 * (p0 + p1 + p2 + p3)) / 2 ^ 24)
    with (p0 + p1 + p2 + p3) by int_arith.
  int_arith.
Qed.

Lemma getNumSetBits_halves a b :
  0 <= a < 65536 -> 0 <= b < 65536 ->
  getNumSetBits (a + 65536 * b) = half_count a + half_count b.
Proof.
  intros Ha Hb.
  destruct (half_facts a Ha) as (Ha1 & Ha2 & Ha2' & Ha3 & Ha3' & Ha3'' & _).
  destruct (half_facts b Hb) as (Hb1 & Hb2 & Hb2' & Hb3 & Hb3' & Hb3'' & _).
  cbv zeta in *.
  unfold getNumSetBits, half_count. cbv zeta.
  rewrite (to_uint32_small (a + 65536 * b)) by lia.
  rewrite step1_halves by assumption.
  rewrite (to_uint32_small (half_step1 a + 65536 * half_step1 b)) by lia.
  rewrite step2_halves by assumption.
  rewrite (to_uint32_small
             (half_step2 (half_step1 a) + 65536 * half_step2 (half_step1 b)))
    by lia.
  rewrite step3_halves by assumption.
  apply step4_halves; assumption.
Qed.

Lemma popcount_upto_ext n u v :
  (forall j, 0 <= j < Z.of_nat n -> Z.testbit u j = Z.testbit v j) ->
  popcount_upto n u = popcount_upto n v.
Proof.
  induction n as [| n IH]; intros H; cbn [popcount_upto]; [reflexivity |].
  rewrite IH, (H (Z.of_nat n)) by (intros; try apply H; lia). reflexivity.
Qed.

Lemma popcount_upto_add n m v :
  popcount_upto (n + m) v
  = popcount_upto n v + popcount_upto m (Z.shiftr v (Z.of_nat n)).
Proof.
  induction m as [| m IH].
  - rewrite Nat.add_0_r. cbn [popcount_upto]. lia.
  - rewrite Nat.add_succ_r. cbn [popcount_upto]. rewrite IH.
    rewrite Z.shiftr_spec by lia.
    replace (Z.of_nat m + Z.of_nat n) with (Z.of_nat (n + m)) by lia. lia.
Qed.

Lemma popcount_halves a b :
  0 <= a < 65536 ->
  popcount_upto 32 (a + 65536 * b) = popcount_upto 16 a + popcount_upto 16 b.
Proof.
  intros Ha. change 32%nat with (16 + 16)%nat. rewrite popcount_upto_add.
  f_equal.
  - apply popcount_upto_ext. intros j Hj.
    rewrite testbit_halves by lia.
    replace (j <? 16) with true by (symmetry; apply Z.ltb_lt; lia).
    reflexivity.
  - f_equal. rewrite Z.shiftr_div_pow2 by lia. int_arith.
Qed.

Lemma getNumSetBits_is_popcount v :
  0 <= v < 2 ^ 32 -> getNumSetBits v = popcount_upto 32 v.
Proof.
  intros Hv.
  assert (Ha : 0 <= v mod 65536 < 65536) by (apply Z.mod_pos_bound; lia).
  assert (Hb : 0 <= v / 65536 < 65536) by int_arith.
  replace v with (v mod 65536 + 65536 * (v / 65536)) by int_arith.
  rewrite getNumSetBits_halves, popcount_halves by assumption.
  destruct (half_facts _ Ha) as (_ & _ & _ & _ & _ & _ & Hca).
  destruct (half_facts _ Hb) as (_ & _ & _ & _ & _ & _ & Hcb).
  cbv zeta in Hca, Hcb. rewrite Hca, Hcb. reflexivity.
Qed.

(** X18. [getNumSetBits] returns the number of 1-bits of a 32-bit word. *)
Theorem getNumSetBits_popcount v :
  0 <= v < 2 ^ 32 -> getNumSetBits v = popcount_upto 32 v.
Proof. exact (getNumSetBits_is_popcount v). Qed.

Lemma getNumSetBits_popcount_witness :
  getNumSetBits 0xF00F0101 = popcount_upto 32 0xF00F0101.
Proof. apply (getNumSetBits_popcount 0xF00F0101). lia. Defined.

(** Bits 0..31 of a word and of its reading as [int]. *)
Lemma testbit_to_int32 y j :
  0 <= j < 32 -> Z.testbit (to_int32 y) j = Z.testbit y j.
Proof.
  intros Hj.
  rewrite <- (Z.mod_pow2_bits_low (to_int32 y) 32 j) by lia.
  rewrite <- (Z.mod_pow2_bits_low y 32 j) by lia.
  f_equal. int_arith.
Qed.

Lemma int32_zero_bits x :
  int32_range x -> (forall j, 0 <= j < 32 -> Z.testbit x j = false) -> x = 0.
Proof.
  intros Hr H.
  assert (Hm : x mod 2 ^ 32 = 0).
  { apply Z.bits_inj'. intros n Hn. rewrite Z.bits_0.
    destruct (Z.ltb_spec n 32).
    - rewrite Z.mod_pow2_bits_low by lia. apply H. lia.
    - apply Z.mod_pow2_bits_high. lia. }
  apply (int32_multiple_zero x 32); [lia | assumption | assumption].
Qed.

Lemma int32_nonzero_bit x :
  int32_range x -> x <> 0 -> exists j, 0 <= j < 32 /\ Z.testbit x j = true.
Proof.
  intros Hr Hnz.
  assert (Hm : x mod 2 ^ 32 <> 0).
  { intros Hm. apply Hnz. apply (int32_multiple_zero x 32); [lia | | ];
      assumption. }
  assert (Hb : 0 <= x mod 2 ^ 32 < 2 ^ 32) by (apply Z.mod_pos_bound; lia).
  destruct (x mod 2 ^ 32) as [| p | p] eqn:Hp; try lia.
  destruct (pos_ctz_spec p) as [H1 _]. destruct (pos_ctz_bound p) as [Hc0 Hc1].
  assert (Hlt : pos_ctz p < 32) by (apply (Z.pow_lt_mono_r_iff 2); lia).
  exists (pos_ctz p). split; [lia |].
  rewrite <- (Z.mod_pow2_bits_low x 32) by lia. rewrite Hp. exact H1.
Qed.


Lemma loop_inv_step v k x :
  0 <= k -> loop_inv v k x ->
  loop_inv v (k + 1) (Z.land x (to_int32 (Z.shiftl x 1))).
Proof.
  intros Hk Hinv j Hj.
  rewrite Z.land_spec, testbit_to_int32, Z.shiftl_spec, andb_true_iff by lia.
  unfold run_ending_at. split.
  - intros [H1 H2].
    assert (Hj1 : 0 <= j - 1).
    { destruct (Z.lt_ge_cases (j - 1) 0) as [Hneg |]; [| assumption].
      rewrite Z.testbit_neg_r in H2 by assumption. discriminate. }
    apply (Hinv j Hj) in H1. apply (Hinv (j - 1)) in H2; [| lia].
    destruct H1 as [Hk1 Hr1], H2 as [Hk2 Hr2]. split; [lia |].
    intros t Ht. destruct (Z.eq_dec t j) as [-> | Hne].
    + apply Hr1. lia.
    + apply Hr2. lia.
  - intros [Hk1 Hr]. split.
    + apply (Hinv j Hj). split; [lia |]. intros t Ht. apply Hr. lia.
    + apply (Hinv (j - 1)); [lia |]. split; [lia |].
      intros t Ht. apply Hr. lia.
Qed.

Lemma has_run_of_bit v k x j :
  0 <= k -> loop_inv v k x -> 0 <= j < 32 -> Z.testbit x j = true ->
  has_run v (k + 1).
Proof.
  intros Hk Hinv Hj Hb. apply (Hinv j Hj) in Hb. destruct Hb as [Hkj Hr].
  exists (j - k). repeat split; try lia. intros t Ht. apply Hr. lia.
Qed.

Lemma no_longer_run v k x :
  0 <= k -> loop_inv v k x ->
  (forall j, 0 <= j < 32 -> Z.testbit x j = false) ->
  ~ has_run v (k + 1).
Proof.
  intros Hk Hinv Hz (i & Hi & Hlen & Hr).
  assert (Hj : 0 <= i + k < 32) by lia.
  assert (Hb : Z.testbit x (i + k) = true).
  { apply (Hinv _ Hj). split; [lia |]. intros t Ht. apply Hr. lia. }
  rewrite Hz in Hb by assumption. discriminate.
Qed.

Lemma getNumConsecutiveOnes_loop_spec v fuel :
  forall k x,
    0 <= k -> 32 <= k + Z.of_nat fuel ->
    int32_range x -> loop_inv v k x ->
    (k = 0 \/ has_run v k) ->
    let c := getNumConsecutiveOnes_loop fuel x k in
    k <= c <= 32 /\ has_run v c /\ ~ has_run v (c + 1).
Proof.
  assert (Hrun0 : has_run v 0).
  { exists 0. split; [lia |]. split; [lia |]. intros j Hj. lia. }
  assert (Hexit : forall k x,
             0 <= k -> loop_inv v k x -> (k = 0 \/ has_run v k) ->
             (forall j, 0 <= j < 32 -> Z.testbit x j = false) ->
             k <= k <= 32 /\ has_run v k /\ ~ has_run v (k + 1)).
  { intros k x Hk Hinv Hrun Hz.
    assert (Hhas : has_run v k) by (destruct Hrun as [-> | ?]; assumption).
    repeat split; try lia; try assumption.
    - destruct Hhas as (i & Hi & Hlen & _). lia.
    - exact (no_longer_run v k x Hk Hinv Hz). }
  induction fuel as [| fuel IH]; intros k x Hk Hfuel Hr Hinv Hrun;
    cbn [getNumConsecutiveOnes_loop].
  - cbv zeta. apply (Hexit k x); try assumption.
    intros j Hj. destruct (Z.testbit x j) eqn:Hb; [| reflexivity].
    apply (Hinv j Hj) in Hb. destruct Hb as [Hkj _]. simpl in Hfuel. lia.
  - rewrite Nat2Z.inj_succ in Hfuel. cbv zeta.
    destruct (Z.eqb_spec x 0) as [-> | Hnz].
    + apply (Hexit k 0); try assumption. intros j _. apply Z.bits_0.
    + destruct (int32_nonzero_bit x Hr Hnz) as (j & Hj & Hb).
      pose proof (has_run_of_bit v k x j Hk Hinv Hj Hb) as Hnext.
      assert (Hk31 : k <= 31).
      { apply (Hinv j Hj) in Hb. destruct Hb. lia. }
      replace (to_int32 (k + 1)) with (k + 1) by int_arith.
      specialize (IH (k + 1) (Z.land x (to_int32 (Z.shiftl x 1)))).
      cbv zeta in IH.
      destruct IH as (Hc & Hhas & Hno); try lia.
      * apply land_int32_range; [assumption | apply to_int32_range].
      * apply loop_inv_step; assumption.
      * right. exact Hnext.
      * repeat split; try lia; assumption.
Qed.

Lemma getNumConsecutiveOnes_is_longest_run v :
  0 <= v < 2 ^ 32 ->
  (forall extra,
      getNumConsecutiveOnes_loop (32 + extra) (to_int32 v) 0
      = getNumConsecutiveOnes v)
  /\ 0 <= getNumConsecutiveOnes v <= 32
  /\ has_run v (getNumConsecutiveOnes v)
  /\ ~ has_run v (getNumConsecutiveOnes v + 1).
Proof.
  intros Hv. split; [intros extra; apply getNumConsecutiveOnes_total |].
  unfold getNumConsecutiveOnes.
  apply (getNumConsecutiveOnes_loop_spec v 32 0 (to_int32 v)); try lia.
  - apply to_int32_range.
  - intros j Hj. rewrite testbit_to_int32 by assumption.
    unfold run_ending_at. split.
    + intros Hb. split; [lia |]. intros t Ht.
      replace t with j by lia. exact Hb.
    + intros [_ Hr]. apply Hr. lia.
Qed.

(** X19. The [while] loop of [getNumConsecutiveOnes] ends within 32 rounds
    (more fuel does not change the result), and the function returns the
    length of the longest run of consecutive 1-bits of a 32-bit word: the
    word has a run of that length and none that is longer (0 for the word
    0). *)
Theorem getNumConsecutiveOnes_longest_run v :
  0 <= v < 2 ^ 32 ->
  (forall extra,
      getNumConsecutiveOnes_loop (32 + extra) (to_int32 v) 0
      = getNumConsecutiveOnes v)
  /\ 0 <= getNumConsecutiveOnes v <= 32
  /\ has_run v (getNumConsecutiveOnes v)
  /\ ~ has_run v (getNumConsecutiveOnes v + 1).
Proof. exact (getNumConsecutiveOnes_is_longest_run v). Qed.

Lemma getNumConsecutiveOnes_longest_run_witness :
  (forall extra,
      getNumConsecutiveOnes_loop (32 + extra) (to_int32 0x0E70) 0
      = getNumConsecutiveOnes 0x0E70)
  /\ 0 <= getNumConsecutiveOnes 0x0E70 <= 32
  /\ has_run 0x0E70 (getNumConsecutiveOnes 0x0E70)
  /\ ~ has_run 0x0E70 (getNumConsecutiveOnes 0x0E70 + 1).
Proof. apply (getNumConsecutiveOnes_longest_run 0x0E70). lia. Defined.

Lemma testbit_ones_at c i j :
  0 <= c -> 0 <= i -> 0 <= j ->
  Z.testbit (ones_at c i) j = (i <=? j) && (j <? i + c).
Proof.
  intros Hc Hi Hj. unfold ones_at. rewrite Z.shiftl_spec by assumption.
  replace (2 ^ c - 1) with (Z.ones c) by (rewrite Z.ones_equiv; lia).
  destruct (Z.leb_spec i j); cbn [andb].
  - destruct (Z.ltb_spec j (i + c)).
    + apply Z.ones_spec_low. lia.
    + apply Z.ones_spec_high. lia.
  - apply Z.testbit_neg_r. lia.
Qed.

Lemma popcount_upto_nonneg n v : 0 <= popcount_upto n v.
Proof.
  induction n as [| n IH]; cbn [popcount_upto]; [lia |].
  destruct (Z.testbit v (Z.of_nat n)); lia.
Qed.

Lemma popcount_upto_zero n v :
  popcount_upto n v = 0 ->
  forall j, 0 <= j < Z.of_nat n -> Z.testbit v j = false.
Proof.
  induction n as [| n IH]; cbn [popcount_upto]; intros H j Hj; [lia |].
  pose proof (popcount_upto_nonneg n v).
  destruct (Z.testbit v (Z.of_nat n)) eqn:Hb; [lia |].
  destruct (Z.eq_dec j (Z.of_nat n)) as [-> | Hne]; [exact Hb |].
  apply IH; lia.
Qed.

Lemma popcount_upto_split n u v :
  (forall j, 0 <= j < Z.of_nat n ->
             Z.testbit u j = true -> Z.testbit v j = true) ->
  popcount_upto n v = popcount_upto n u + popcount_upto n (Z.ldiff v u).
Proof.
  induction n as [| n IH]; intros H; cbn [popcount_upto]; [reflexivity |].
  rewrite IH by (intros; apply H; [lia | assumption]).
  rewrite Z.ldiff_spec.
  specialize (H (Z.of_nat n) ltac:(lia)).
  destruct (Z.testbit u (Z.of_nat n)), (Z.testbit v (Z.of_nat n));
    cbn [andb negb]; try lia.
Qed.

(** A non-zero word whose number of set bits equals the length of its
    longest run is that one run. *)
Lemma contiguous_of_counts v :
  0 < v < 2 ^ 32 ->
  getNumSetBits v = getNumConsecutiveOnes v ->
  exists p, 0 <= p /\ 1 <= getNumConsecutiveOnes v
            /\ p + getNumConsecutiveOnes v <= 32
            /\ v = ones_at (getNumConsecutiveOnes v) p.
Proof.
  intros Hv Heq.
  destruct (getNumConsecutiveOnes_is_longest_run v ltac:(lia))
    as (_ & Hc & (p & Hp & Hlen & Hrun) & _).
  rewrite getNumSetBits_is_popcount in Heq by lia.
  set (c := getNumConsecutiveOnes v) in *. clearbody c.
  assert (Hc1 : 1 <= c).
  { destruct (Z.eq_dec c 0) as [-> | Hne]; [| lia]. exfalso.
    assert (v mod 2 ^ 32 = 0); [| rewrite Z.mod_small in *; lia].
    apply Z.bits_inj'. intros n Hn. rewrite Z.bits_0.
    destruct (Z.ltb_spec n 32).
    - rewrite Z.mod_pow2_bits_low by lia.
      apply (popcount_upto_zero 32 v Heq). simpl. lia.
    - apply Z.mod_pow2_bits_high. lia. }
  exists p. repeat split; try lia.
  assert (Hu : popcount_upto 32 (ones_at c p) = c).
  { destruct (contiguous_run_measured p c Hp Hc1 Hlen) as (_ & Hs & _).
    rewrite <- getNumSetBits_is_popcount; [exact Hs |].
    unfold ones_at. rewrite Z.shiftl_mul_pow2 by lia.
    assert (2 ^ c * 2 ^ p = 2 ^ (c + p)) by (rewrite Z.pow_add_r; lia).
    assert (2 ^ (c + p) <= 2 ^ 32) by (apply Z.pow_le_mono_r; lia).
    assert (0 < 2 ^ p) by (apply Z.pow_pos_nonneg; lia).
    assert (1 <= 2 ^ c) by (apply Z.pow_le_mono_r with (b := 0); lia).
    nia. }
  assert (Hsplit := popcount_upto_split 32 (ones_at c p) v).
  rewrite Hu, Heq in Hsplit.
  assert (Hrest : popcount_upto 32 (Z.ldiff v (ones_at c p)) = 0).
  { assert (Hsub : forall j, 0 <= j < Z.of_nat 32 ->
                Z.testbit (ones_at c p) j = true -> Z.testbit v j = true).
    { intros j Hj. rewrite testbit_ones_at by lia.
      rewrite andb_true_iff, Z.leb_le, Z.ltb_lt. intros Hin.
      apply Hrun. lia. }
    specialize (Hsplit Hsub). lia. }
  apply Z.bits_inj'. intros j Hj. rewrite testbit_ones_at by lia.
  destruct (Z.leb_spec p j) as [Hpj | Hpj]; cbn [andb].
  - destruct (Z.ltb_spec j (p + c)) as [Hjc | Hjc].
    + apply Hrun. lia.
    + destruct (Z.ltb_spec j 32) as [Hj32 | Hj32].
      * pose proof (popcount_upto_zero 32 _ Hrest j ltac:(simpl; lia)) as Hb.
        rewrite Z.ldiff_spec, testbit_ones_at in Hb by lia.
        replace (j <? p + c) with false in Hb
          by (symmetry; apply Z.ltb_ge; lia).
        rewrite andb_false_r in Hb. cbn [negb] in Hb.
        rewrite andb_true_r in Hb. exact Hb.
      * rewrite <- (Z.mod_small v (2 ^ 32)) by lia.
        apply Z.mod_pow2_bits_high. lia.
  - pose proof (popcount_upto_zero 32 _ Hrest j ltac:(simpl; lia)) as Hb.
    rewrite Z.ldiff_spec, testbit_ones_at in Hb by lia.
    replace (p <=? j) with false in Hb by (symmetry; apply Z.leb_gt; lia).
    cbn [andb negb] in Hb. rewrite andb_true_r in Hb. exact Hb.
Qed.

Lemma popcount_upto_le n v : popcount_upto n v <= Z.of_nat n.
Proof.
  induction n as [| n IH]; cbn [popcount_upto]; [simpl; lia |].
  rewrite Nat2Z.inj_succ. destruct (Z.testbit v (Z.of_nat n)); lia.
Qed.

Lemma SelectConstant_low_run p n :
  0 <= p -> 1 <= n <= 4 -> p + n <= 32 ->
  SelectConstant i64 (ones_at n p)
  = Selected (MachineNode IMASKrcpw i64
                [TargetConstant i32 (2 ^ n - 1); TargetConstant i32 p;
                 TargetConstant i32 0]).
Proof.
  intros Hp Hn Hpn.
  pose proof (forall_runs_sound _ low_run_selected_all p n
                ltac:(lia) ltac:(lia)) as H.
  unfold low_run_selected in H.
  replace (n <=? 4) with true in H by (symmetry; apply Z.leb_le; lia).
  replace (p + n <=? 32) with true in H by (symmetry; apply Z.leb_le; lia).
  cbn [andb] in H. apply andb_true_iff in H.
  exact (is_IMASK_sound _ _ _ _ (proj1 H)).
Qed.

Lemma SelectConstant_high_run p n :
  0 <= p -> 1 <= n -> p + n <= 31 ->
  SelectConstant i64 (Z.shiftl (ones_at n p) 32)
  = Selected (MachineNode IMASKrcpw i64
                [TargetConstant i32 0; TargetConstant i32 p;
                 TargetConstant i32 n]).
Proof.
  intros Hp Hn Hpn.
  pose proof (forall_runs_sound _ high_run_selected_all p n
                ltac:(lia) ltac:(lia)) as H.
  unfold high_run_selected in H.
  replace (p + n <=? 31) with true in H by (symmetry; apply Z.leb_le; lia).
  apply andb_true_iff in H.
  exact (is_IMASK_sound _ _ _ _ (proj1 H)).
Qed.


Lemma SelectConstant_i64_IMASK_only_if Val ops :
  SelectConstant i64 Val = Selected (MachineNode IMASKrcpw i64 ops) ->
  IMASK_value (getZExtValue i64 Val).
Proof.
  destruct (i64_halves Val) as (Hl & Hh & Hv). cbv zeta in Hl, Hh, Hv.
  unfold SelectConstant. cbn [MVT_eqb]. cbv zeta.
  set (v := getZExtValue i64 Val) in *.
  set (lower := to_uint32 (Z.land v 0x00000000ffffffff)) in *.
  set (higher := to_uint32 (Z.shiftr v 32)) in *.
  assert (Hlr : 0 <= lower < 2 ^ 32)
    by (rewrite Hl; apply Z.mod_pos_bound; lia).
  assert (Hhr : 0 <= higher < 2 ^ 32) by (rewrite Hh; int_arith).
  assert (Hvl : v = lower + 2 ^ 32 * higher) by (rewrite Hl, Hh; int_arith).
  pose proof (getFFS_range higher) as Hph.
  pose proof (getNumConsecutiveOnes_range lower) as Hnl.
  pose proof (getNumConsecutiveOnes_range higher) as Hnh.
  assert (Hsl : 0 <= getNumSetBits lower <= 32).
  { rewrite getNumSetBits_is_popcount by assumption.
    pose proof (popcount_upto_le 32 lower) as Hle.
    pose proof (popcount_upto_nonneg 32 lower).
    change (Z.of_nat 32) with 32 in Hle. lia. }
  assert (Hsh : 0 <= getNumSetBits higher <= 32).
  { rewrite getNumSetBits_is_popcount by assumption.
    pose proof (popcount_upto_le 32 higher) as Hle.
    pose proof (popcount_upto_nonneg 32 higher).
    change (Z.of_nat 32) with 32 in Hle. lia. }
  assert (Hcl : 0 < lower ->
                getNumSetBits lower = getNumConsecutiveOnes lower ->
                exists p, 0 <= p /\ 1 <= getNumConsecutiveOnes lower
                          /\ p + getNumConsecutiveOnes lower <= 32
                          /\ lower = ones_at (getNumConsecutiveOnes lower) p)
    by (intros; apply contiguous_of_counts; [lia | assumption]).
  assert (Hch : 0 < higher ->
                getNumSetBits higher = getNumConsecutiveOnes higher ->
                exists p, 0 <= p /\ 1 <= getNumConsecutiveOnes higher
                          /\ p + getNumConsecutiveOnes higher <= 32
                          /\ higher = ones_at (getNumConsecutiveOnes higher) p
                          /\ getFFS higher - 1 = p).
  { intros Hpos Heq.
    destruct (contiguous_of_counts higher ltac:(lia) Heq)
      as (p & Hp & Hn & Hpn & Hrun).
    exists p. repeat split; try assumption.
    rewrite Hrun at 1.
    exact (proj1 (contiguous_run_measured p _ Hp Hn Hpn)). }
  set (pl := getFFS lower) in *. set (ph := getFFS higher) in *.
  set (sl := getNumSetBits lower) in *. set (sh := getNumSetBits higher) in *.
  set (nl := getNumConsecutiveOnes lower) in *.
  set (nh := getNumConsecutiveOnes higher) in *.
  clearbody pl ph sl sh nl nh lower higher. clear Hl Hh.
  intros H.
  destruct (Z.eqb_spec v 0) as [Hz | Hz]; [left; assumption |].
  destruct ((getSExtValue i64 Val <? 0)
            || negb (higher =? 0) && negb (lower =? 0)) eqn:H1;
    [discriminate |].
  destruct ((higher =? 0) && negb (lower =? 0)) eqn:H2.
  { destruct (negb (to_uint64 sl =? to_uint64 nl)) eqn:H3; [discriminate |].
    destruct (to_uint64 nl >? 4) eqn:H4; [discriminate |].
    bool_prop H2. bool_prop H3. bool_prop H4.
    rewrite (to_uint64_small sl), (to_uint64_small nl) in H3 by lia.
    rewrite (to_uint64_small nl) in H4 by lia.
    destruct (Hcl ltac:(lia) H3) as (p & Hp & Hn & Hpn & Hrun).
    right. exists p, nl. repeat split; try assumption.
    left. repeat split; try lia. }
  destruct (negb (higher =? 0) && (lower =? 0)) eqn:H3.
  { destruct (negb (to_uint64 sh =? to_uint64 nh)) eqn:H4; [discriminate |].
    destruct (to_uint64 (to_uint64 (ph - 1) + to_uint64 nh) >? 31) eqn:H5;
      [discriminate |].
    bool_prop H3. bool_prop H4. bool_prop H5.
    rewrite (to_uint64_small sh), (to_uint64_small nh) in H4 by lia.
    rewrite (to_uint64_small nh) in H5 by lia.
    destruct (Hch ltac:(lia) H4) as (p & Hp & Hn & Hpn & Hrun & Hffs).
    rewrite Hffs in H5.
    rewrite (to_uint64_small p), (to_uint64_small (p + nh)) in H5 by lia.
    right. exists p, nh. repeat split; try assumption.
    right. split; [lia |].
    rewrite Z.shiftl_mul_pow2, <- Hrun by lia. lia. }
  exfalso. bool_prop H1. bool_prop H2. bool_prop H3. lia.
Qed.

(** X20. For a 64-bit constant, [SelectConstant] builds a masked insert
    exactly when the value is zero, or a run of at most 4 consecutive ones
    in the low word, or a run of consecutive ones in the high word ending
    below that word's bit 31; every other 64-bit value (negative, both
    words non-zero, bits that are not one run, a run too long or too high)
    goes to the generic selector. *)
Theorem SelectConstant_i64_IMASK_iff Val :
  ((exists ops,
       SelectConstant i64 Val = Selected (MachineNode IMASKrcpw i64 ops))
   <-> IMASK_value (getZExtValue i64 Val))
  /\ (~ IMASK_value (getZExtValue i64 Val) ->
      SelectConstant i64 Val = SelectCode).
Proof.
  assert (Hif : IMASK_value (getZExtValue i64 Val) ->
                exists ops,
                  SelectConstant i64 Val
                  = Selected (MachineNode IMASKrcpw i64 ops)).
  { rewrite <- (SelectConstant_mod i64 Val).
    change (Val mod 2 ^ getSizeInBits i64) with (getZExtValue i64 Val).
    intros [-> | (p & n & Hp & Hn & [(Hn4 & Hpn & ->) | (Hpn & ->)])].
    - eexists. reflexivity.
    - eexists. apply SelectConstant_low_run; lia.
    - eexists. apply SelectConstant_high_run; lia. }
  split; [split |].
  - intros [ops H]. exact (SelectConstant_i64_IMASK_only_if Val ops H).
  - exact Hif.
  - intros Hno. destruct (SelectConstant_i64_cases Val) as [H | [ops H]];
      [exact H |].
    exfalso. apply Hno. exact (SelectConstant_i64_IMASK_only_if Val ops H).
Qed.

Lemma SelectConstant_i64_IMASK_iff_witness :
  SelectConstant i64 0x500000000 = SelectCode.
Proof.
  apply (proj2 (SelectConstant_i64_IMASK_iff 0x500000000)).
  intros H.
  apply (proj2 (proj1 (SelectConstant_i64_IMASK_iff 0x500000000))) in H.
  destruct H as [ops H]. discriminate H.
Defined.

(** * The displacement is only ever added to *)

Section DisplacementShift.

Variable MaskedValueIsZero : SDValue -> MVT -> Z -> bool.

Lemma add_Disp_comm A x y :
  add_Disp (add_Disp A x) y = add_Disp (add_Disp A y) x.
Proof. rewrite !add_Disp_add_Disp. f_equal. ring. Qed.

Lemma MatchAddressBase_shift N AM d :
  MatchAddressBase N (add_Disp AM d)
  = (fst (MatchAddressBase N AM), add_Disp (snd (MatchAddressBase N AM)) d).
Proof.
  unfold MatchAddressBase. cbn [add_Disp set_Disp BaseType Base_Reg].
  destruct (BaseType AM), (Base_Reg AM); reflexivity.
Qed.

Lemma MatchWrapper_shift N AM d :
  MatchWrapper N (add_Disp AM d)
  = (fst (MatchWrapper N AM), add_Disp (snd (MatchWrapper N AM)) d).
Proof.
  unfold MatchWrapper.
  change (hasSymbolicDisplacement (add_Disp AM d))
    with (hasSymbolicDisplacement AM).
  destruct (hasSymbolicDisplacement AM); [reflexivity |].
  destruct (getOperand N 0) as [[] |]; try reflexivity.
  cbn [fst snd].
  change (set_GV (add_Disp AM d) (Some G))
    with (add_Disp (set_GV AM (Some G)) d).
  rewrite add_Disp_comm. reflexivity.
Qed.

Lemma MatchAddress_shift_result N :
  forall AM d,
    MatchAddress MaskedValueIsZero N (add_Disp AM d)
    = (fst (MatchAddress MaskedValueIsZero N AM),
       add_Disp (snd (MatchAddress MaskedValueIsZero N AM)) d).
Proof.
  induction N as [VT Val | FI | Op _ | | | | | | A IHA B IHB | X IHX C _ | |];
    intros AM d; try (apply MatchAddressBase_shift).
  - rewrite !MatchAddress_Constant. cbn [fst snd].
    rewrite add_Disp_comm. reflexivity.
  - rewrite !MatchAddress_FrameIndex.
    cbn [add_Disp set_Disp BaseType Base_Reg].
    destruct (BaseType AM), (Base_Reg AM);
      try (apply MatchAddressBase_shift); reflexivity.
  - rewrite !MatchAddress_Wrapper, MatchWrapper_shift.
    destruct (MatchWrapper (Wrapper Op) AM) as [[] AM1]; cbn [fst snd];
      [apply MatchAddressBase_shift | reflexivity].
  - assert (Horder : forall P Q,
               (forall AM d,
                   MatchAddress MaskedValueIsZero P (add_Disp AM d)
                   = (fst (MatchAddress MaskedValueIsZero P AM),
                      add_Disp (snd (MatchAddress MaskedValueIsZero P AM)) d)) ->
               (forall AM d,
                   MatchAddress MaskedValueIsZero Q (add_Disp AM d)
                   = (fst (MatchAddress MaskedValueIsZero Q AM),
                      add_Disp (snd (MatchAddress MaskedValueIsZero Q AM)) d)) ->
               match_in_order MaskedValueIsZero P Q (add_Disp AM d)
               = option_map (fun A2 => add_Disp A2 d)
                   (match_in_order MaskedValueIsZero P Q AM)).
    { intros P Q HP HQ. unfold match_in_order. rewrite HP.
      destruct (MatchAddress MaskedValueIsZero P AM) as [[] A1]; cbn [fst snd];
        [reflexivity |].
      rewrite HQ.
      destruct (MatchAddress MaskedValueIsZero Q A1) as [[] A2]; reflexivity. }
    rewrite !MatchAddress_ADD, (Horder A B IHA IHB), (Horder B A IHB IHA).
    destruct (match_in_order MaskedValueIsZero A B AM); [reflexivity |].
    destruct (match_in_order MaskedValueIsZero B A AM); [reflexivity |].
    apply MatchAddressBase_shift.
  - unfold MatchAddress. rewrite !MatchAddress_switch_OR.
    destruct C; try (apply MatchAddressBase_shift).
    rewrite IHX.
    destruct (MatchAddress MaskedValueIsZero X AM) as [[] A1]; cbn [fst snd];
      try (apply MatchAddressBase_shift).
    change (GV (add_Disp A1 d)) with (GV A1).
    destruct (negb (isSome (GV A1)) && MaskedValueIsZero X VT Val);
      [| apply MatchAddressBase_shift].
    cbn [fst snd]. rewrite add_Disp_comm. reflexivity.
Qed.

(** X21. The matcher only ever adds to the displacement and never looks at
    it: entering [MatchAddress] with the displacement shifted by [d] gives
    the same verdict and the same mode, with its displacement shifted by
    [d] (in 64-bit two's complement). *)
Theorem MatchAddress_displacement_shift N AM d :
  MatchAddress MaskedValueIsZero N (add_Disp AM d)
  = (fst (MatchAddress MaskedValueIsZero N AM),
     add_Disp (snd (MatchAddress MaskedValueIsZero N AM)) d).
Proof. exact (MatchAddress_shift_result N AM d). Qed.

End DisplacementShift.
